(** * rdf/graph.go: the graph layer of awless over a triple store

    A shallow embedding of [src/rdf/graph.go] and the properties of its
    operations: construction, depth-first traversal along [parent_of],
    subtraction and intersection of graphs, and the canonical text form
    ([Marshal] / [Unmarshal]).

    The triple store (badwolf's [storage.Graph]), the triple text codec
    ([Triple.String], [triple.Parse]) and Go's [bytes] and [sort] packages are
    collaborators of the file.  The store and the codec are interfaces here
    (type classes); [bytes] and [sort] are modelled by the functions the file
    calls. *)

From Stdlib Require Import ZArith Strings.Ascii Strings.Byte.
From Stdlib Require OrderedTypeEx DecimalString DecimalZ DecimalPos.
From stdpp Require Import base option list gmap strings sorting.

Local Open Scope Z_scope.

(** ** Go's [int] (64 bits, two's complement, wrapping) *)

Definition int_min : Z := - 2 ^ 63.
Definition int_max : Z := 2 ^ 63 - 1.

Definition int_wrap (z : Z) : Z := (z + 2 ^ 63) mod 2 ^ 64 - 2 ^ 63.

Definition int_add (a b : Z) : Z := int_wrap (a + b).

(** [len(s)] of a slice, as an [int]. *)
Definition len {A} (l : list A) : Z := Z.of_nat (length l).

(** Go's [error] values are carried as their message. *)
Definition error : Type := string.

(** ** Triples (badwolf's [node], [predicate], [literal], [triple]) *)

Record Node := mkNode { node_Type : string; node_ID : string }.

Inductive Predicate :=
| Immutable (id : string)
| Temporal (id : string) (anchor : string).

Record Literal := mkLiteral { lit_Type : string; lit_Value : string }.

Inductive Object :=
| ObjNode (n : Node)
| ObjPredicate (p : Predicate)
| ObjLiteral (l : Literal).

Record Triple := mkTriple { Subject : Node; Pred : Predicate; Obj : Object }.

#[global] Instance Node_eq_dec : EqDecision Node.
Proof. solve_decision. Defined.
#[global] Instance Predicate_eq_dec : EqDecision Predicate.
Proof. solve_decision. Defined.
#[global] Instance Literal_eq_dec : EqDecision Literal.
Proof. solve_decision. Defined.
#[global] Instance Object_eq_dec : EqDecision Object.
Proof. solve_decision. Defined.
#[global] Instance Triple_eq_dec : EqDecision Triple.
Proof. solve_decision. Defined.

(** [n.ID().String()]: the sort key of [nodeSorter]. *)
Definition ID_String (n : Node) : string := node_ID n.

(** [o.Node()]: the object as a node, or an error when it holds a predicate
    or a literal. *)
Definition Object_Node (o : Object) : Node + error :=
  match o with
  | ObjNode n => inl n
  | _ => inr "triple.Object does not contain a node"%string
  end.

(** [var parentOf], set once by [init] to [predicate.NewImmutable("parent_of")]
    (which only fails, and then panics, for an empty identifier). *)
Definition parentOf : Predicate := Immutable "parent_of".

(** ** Go's [bytes] package, as used by the file *)

Abbreviation bytes := (list byte).

#[global] Instance byte_eq_dec : EqDecision byte := Byte.byte_eq_dec.

(** [[]byte(s)] and [string(b)]. *)
Definition bytes_of_string (s : string) : bytes := String.list_byte_of_string s.
Definition string_of_bytes (b : bytes) : string := String.string_of_list_byte b.

(** [bytes.Split(s, []byte{sep})]: the pieces of [s] between occurrences of
    [sep]; always at least one piece. *)
Fixpoint bytes_Split (s : bytes) (sep : byte) : list bytes :=
  match s with
  | [] => [[]]
  | b :: r =>
      if Byte.eqb b sep then [] :: bytes_Split r sep
      else match bytes_Split r sep with
           | cur :: rest => (b :: cur) :: rest
           | [] => [[b]]
           end
  end.

(** [bytes.Join(s, sep)]. *)
Definition bytes_Join (s : list bytes) (sep : bytes) : bytes :=
  match s with
  | [] => []
  | first :: rest => fold_left (fun b v => b ++ sep ++ v) rest first
  end.

(** One leading white-space rune of a UTF-8 byte sequence, as
    [unicode.IsSpace] decides it: the ASCII ones, U+0085, U+00A0, U+1680,
    U+2000..U+200A, U+2028, U+2029, U+202F, U+205F and U+3000.  Returns the
    bytes after the rune. *)
Definition space_rune (l : bytes) : option bytes :=
  match l with
  | (x09 | x0a | x0b | x0c | x0d | x20) :: r => Some r
  | xc2 :: (x85 | xa0) :: r => Some r
  | xe1 :: x9a :: x80 :: r => Some r
  | xe2 :: x80 ::
      (x80 | x81 | x82 | x83 | x84 | x85 | x86 | x87 | x88 | x89 | x8a
       | xa8 | xa9 | xaf) :: r => Some r
  | xe2 :: x81 :: x9f :: r => Some r
  | xe3 :: x80 :: x80 :: r => Some r
  | _ => None
  end.

Fixpoint trim_left (fuel : nat) (l : bytes) : bytes :=
  match fuel with
  | O => l
  | S fuel' =>
      match space_rune l with
      | Some r => trim_left fuel' r
      | None => l
      end
  end.

Definition bytes_TrimLeftSpace (l : bytes) : bytes := trim_left (length l) l.

Definition is_empty (l : bytes) : bool :=
  match l with [] => true | _ => false end.

Fixpoint bytes_TrimRightSpace (l : bytes) : bytes :=
  match l with
  | [] => []
  | b :: r =>
      if is_empty (bytes_TrimLeftSpace (b :: r)) then []
      else b :: bytes_TrimRightSpace r
  end.

(** [bytes.TrimSpace(s)]. *)
Definition bytes_TrimSpace (l : bytes) : bytes :=
  bytes_TrimRightSpace (bytes_TrimLeftSpace l).

(** A sequence of white-space runes and nothing else. *)
Inductive whitespace_only : bytes → Prop :=
| whitespace_none : whitespace_only []
| whitespace_rune l r :
    space_rune l = Some r → whitespace_only r → whitespace_only l.

(** [bytes.Equal(a, b)]. *)
Definition bytes_Equal (a b : bytes) : bool := bool_decide (a = b).

(** ** Go's [sort.Sort], through the [Less] of the sorter

    [sort.Sort] leaves the slice a permutation of itself with no element
    [Less] than one before it.  The model is insertion sort, which is what
    [sort.Sort] runs on slices of fewer than 12 elements. *)
Section Sort.
Context {A : Type} (less : A → A → bool).

Fixpoint sort_insert (x : A) (l : list A) : list A :=
  match l with
  | [] => [x]
  | y :: r => if less y x then y :: sort_insert x r else x :: y :: r
  end.

Definition sort_Sort (l : list A) : list A := foldr sort_insert [] l.
End Sort.

(** Ascending order of the keys [key x], for the byte-wise order of Go's
    [<] on strings: no later element is less than an earlier one. *)
Definition str_le (a b : string) : Prop := String.ltb b a = false.

Definition le_by {A} (key : A → string) (x y : A) : Prop :=
  str_le (key x) (key y).

(** [Less] of a sorter that compares the strings [key x]. *)
Definition less_by {A} (key : A → string) (x y : A) : bool :=
  String.ltb (key x) (key y).

(** [nodeSorter.Less] and [tripleSorter.Less], on the elements. *)
Definition nodeSorter_Less (a b : Node) : bool :=
  String.ltb (ID_String a) (ID_String b).

(** ** The collaborators: triple text codec and triple store *)

(** [t.String()] and [triple.Parse(line, literal.DefaultBuilder())]. *)
Class TripleText := {
  Triple_String : Triple → string;
  triple_Parse : string → Triple + error }.

(** badwolf's [storage.Graph], the interface [Graph] embeds.  A method that
    writes returns the store after the call; a method that streams into a
    channel returns what it sent before it returned, with its error.
    [store_NewGraph] is the graph [memory.DefaultStore.NewGraph] hands out. *)
Class StorageGraph (Sto : Type) := {
  store_NewGraph : Sto;
  AddTriples : Sto → list Triple → Sto * option error;
  RemoveTriples : Sto → list Triple → Sto * option error;
  Exist : Sto → Triple → bool * option error;
  Triples : Sto → list Triple * option error;
  TriplesForSubjectAndPredicate :
    Sto → Node → Predicate → list Triple * option error }.

Definition tripleSorter_Less {text : TripleText} (a b : Triple) : bool :=
  String.ltb (Triple_String a) (Triple_String b).

(** A call either returns or panics. *)
Inductive outcome (A : Type) :=
| Done (a : A)
| Panic (e : error).
Arguments Done {A} a.
Arguments Panic {A} e.

#[global] Instance outcome_ret : MRet outcome := λ A a, Done a.
#[global] Instance outcome_bind : MBind outcome := λ A B f m,
  match m with
  | Done a => f a
  | Panic e => Panic e
  end.

(** ** [type Graph struct] and its methods *)

Record Graph (Sto : Type) := mkGraph { storage_Graph : Sto; triplesCount : Z }.
Arguments mkGraph {Sto} _ _.
Arguments storage_Graph {Sto} _.
Arguments triplesCount {Sto} _.

Section Methods.
Context {text : TripleText} `{store : StorageGraph Sto}.

(** [func (g *Graph) Add(triples ...*triple.Triple) error], on the struct
    [g] points to. *)
Definition Add (g : Graph Sto) (triples : list Triple) :
    Graph Sto * option error :=
  let count := int_add (triplesCount g) (len triples) in
  let '(store, err) := AddTriples (storage_Graph g) triples in
  (mkGraph store count, err).

Definition TriplesCount (g : Graph Sto) : Z := triplesCount g.

(** [allTriples]: every triple the store sends on the channel until it
    closes it, then the error of the scan.  The goroutine and the two
    channels only turn the stream into a slice; the caller blocks until both
    are done. *)
Definition allTriples (g : Graph Sto) : list Triple * option error :=
  Triples (storage_Graph g).

(** Modelled from the spec: [triplesForSubjectAndPredicate] is a helper of
    the package outside [graph.go]; it "queries the store for all facts
    with subject = root and predicate = the fixed parent-of relation". *)
Definition triplesForSubjectAndPredicate (g : Graph Sto) (subject : Node)
    (predicate : Predicate) : list Triple * option error :=
  TriplesForSubjectAndPredicate (storage_Graph g) subject predicate.

(** The loop of [Unmarshal] over the lines. *)
Fixpoint Unmarshal_lines (g : Graph Sto) (lines : list bytes) :
    Graph Sto * option error :=
  match lines with
  | [] => (g, None)
  | line :: rest =>
      if bytes_Equal (bytes_TrimSpace line) []
      then Unmarshal_lines g rest
      else
        match triple_Parse (string_of_bytes line) with
        | inr err => (g, Some err)
        | inl triple =>
            match Add g [triple] with
            | (g', Some err) => (g', Some err)
            | (g', None) => Unmarshal_lines g' rest
            end
        end
  end.

Definition Unmarshal (g : Graph Sto) (data : bytes) : Graph Sto * option error :=
  Unmarshal_lines g (bytes_Split data x0a).

(** [Marshal]; [None] is the [nil] slice of the error return. *)
Definition Marshal (g : Graph Sto) : option bytes * option error :=
  match allTriples g with
  | (_, Some err) => (None, Some err)
  | (triples, None) =>
      let triples := sort_Sort tripleSorter_Less triples in
      let out := map (λ triple, bytes_of_string (Triple_String triple))
                     triples in
      (Some (bytes_Join out [x0a]), None)
  end.

Definition FlushString (g : Graph Sto) : string :=
  string_of_bytes (default [] (Marshal g).1).

(** The first loop of [VisitDepthFirst]: the objects of the relations as
    nodes, stopping at the first that is not one. *)
Fixpoint collect_childs (relations : list Triple) (childs : list Node) :
    list Node + error :=
  match relations with
  | [] => inl childs
  | relation :: rest =>
      match Object_Node (Obj relation) with
      | inr err => inr err
      | inl n => collect_childs rest (childs ++ [n])
      end
  end.

(** [dist]: the first of the variadic [distances], 0 when there is none. *)
Definition start_depth (distances : list Z) : Z :=
  match distances with
  | d :: _ => d
  | [] => 0
  end.

(** The second loop of [VisitDepthFirst], over the sorted children; [visit]
    is the recursive call.  What [visit] returns is dropped, as in the
    source; only running out of fuel stops the loop. *)
Fixpoint range_childs {St : Type}
    (visit : Node → St → option (St * option error))
    (childs : list Node) (st : St) : option (St * option error) :=
  match childs with
  | [] => Some (st, None)
  | child :: rest =>
      match visit child st with
      | None => None
      | Some (st', _) => range_childs visit rest st'
      end
  end.

(** [VisitDepthFirst].  [each] acts on a state [St] of the caller.  The
    recursion follows [parent_of] for as long as there are facts, so the
    model takes fuel; [None] means the fuel ran out. *)
Fixpoint VisitDepthFirst {St : Type} (fuel : nat) (g : Graph Sto) (root : Node)
    (each : Node → Z → St → St) (distances : list Z) (st : St) :
    option (St * option error) :=
  match fuel with
  | O => None
  | S fuel' =>
      let dist := start_depth distances in
      let st := each root dist st in
      match triplesForSubjectAndPredicate g root parentOf with
      | (_, Some err) => Some (st, Some err)
      | (relations, None) =>
          match collect_childs relations [] with
          | inr err => Some (st, Some err)
          | inl childs =>
              let childs := sort_Sort nodeSorter_Less childs in
              range_childs
                (λ child st,
                   VisitDepthFirst fuel' g child each [int_add dist 1] st)
                childs st
          end
      end
  end.

(** ** The traversal, as the specification words it *)

(** The children of [n]: the objects of its [parent_of] facts, when the
    store returns them and each is a node. *)
Definition childs_of (g : Graph Sto) (n : Node) : option (list Node) :=
  match triplesForSubjectAndPredicate g n parentOf with
  | (relations, None) =>
      match collect_childs relations [] with
      | inl childs => Some childs
      | inr _ => None
      end
  | (_, Some _) => None
  end.

(** Below [n] the [parent_of] facts form a hierarchy of at most [levels]
    levels: the children of every node can be listed, and the chains of
    children end. *)
Inductive hierarchy (g : Graph Sto) : nat → Node → Prop :=
| hierarchy_node levels n childs :
    childs_of g n = Some childs →
    (∀ child, child ∈ childs → hierarchy g levels child) →
    hierarchy g (S levels) n.

(** [visits g each root depth st st']: visiting [root] at [depth] takes the
    state of the visitor from [st] to [st']: [each root depth] first, then
    the children of [root], in ascending order of their identifier, each
    with its own descendants, at [depth + 1]. *)
Inductive visits {St : Type} (g : Graph Sto) (each : Node → Z → St → St) :
    Node → Z → St → St → Prop :=
| visits_root root depth st childs sorted st' :
    childs_of g root = Some childs →
    sorted ≡ₚ childs →
    StronglySorted (le_by ID_String) sorted →
    visits_each g each sorted (depth + 1) (each root depth st) st' →
    visits g each root depth st st'
with visits_each {St : Type} (g : Graph Sto) (each : Node → Z → St → St) :
    list Node → Z → St → St → Prop :=
| visits_none depth st : visits_each g each [] depth st st
| visits_next child rest depth st st1 st2 :
    visits g each child depth st st1 →
    visits_each g each rest depth st1 st2 →
    visits_each g each (child :: rest) depth st st2.
End Methods.

(** ** Graphs in the store: constructors and set algebra

    [memory.DefaultStore] keeps one graph per name and refuses a name twice,
    and the package makes one [Graph] struct per store graph, so a [*Graph] is
    modelled as the name of its store graph and the heap as the map from
    names to structs.  [randString()] is an input: the name it drew. *)
Section World.
Context {text : TripleText} `{store : StorageGraph Sto}.

Local Abbreviation World := (gmap string (Graph Sto)).

(** Reading through a pointer, and calling a method that updates the
    struct behind it. *)
Definition deref (w : World) (g : string) : outcome (Graph Sto) :=
  match w !! g with
  | Some o => Done o
  | None => Panic "invalid memory address or nil pointer dereference"%string
  end.

Definition at_ptr {A} (w : World) (g : string)
    (method : Graph Sto → Graph Sto * A) : outcome (World * A) :=
  o ← deref w g;
  let '(o', a) := method o in
  Done (<[g := o']> w, a).

(** [NewNamedGraph].  When the store refuses the name, Go also returns a
    struct around a nil store graph; every caller in the file drops it, so
    the model returns the error alone. *)
Definition NewNamedGraph (w : World) (name : string) :
    World * (string + error) :=
  match w !! name with
  | Some _ => (w, inr "memory.NewGraph: graph already exists"%string)
  | None => (<[name := mkGraph store_NewGraph 0]> w, inl name)
  end.

Definition NewGraph (w : World) (randString : string) :
    World * (string + error) :=
  NewNamedGraph w randString.

Definition NewNamedGraphFromTriples (w : World) (name : string)
    (triples : list Triple) :
    outcome (World * (option string * option error)) :=
  match NewNamedGraph w name with
  | (w, inr err) => Done (w, (None, Some err))
  | (w, inl g) =>
      '(w, _) ← at_ptr w g
         (λ o, (mkGraph (storage_Graph o) (len triples), ()));
      '(w, err) ← at_ptr w g (λ o, Add o triples);
      Done (w, (Some g, err))
  end.

Definition NewGraphFromTriples (w : World) (randString : string)
    (triples : list Triple) :
    outcome (World * (option string * option error)) :=
  NewNamedGraphFromTriples w randString triples.

(** [NewNamedGraphFromFile]; [files] holds the content of the files
    [ioutil.ReadFile] can read. *)
Definition NewNamedGraphFromFile (files : gmap string bytes) (w : World)
    (graphname filepath : string) :
    outcome (World * (option string * option error)) :=
  match files !! filepath with
  | None => Done (w, (None, Some "open: no such file or directory"%string))
  | Some data =>
      match NewNamedGraph w graphname with
      | (w, inr err) => Done (w, (None, Some err))
      | (w, inl g) =>
          '(w, err) ← at_ptr w g (λ o, Unmarshal o data);
          match err with
          | Some err => Done (w, (None, Some err))
          | None => Done (w, (Some g, None))
          end
      end
  end.

Definition NewGraphFromFile (files : gmap string bytes) (w : World)
    (randString filepath : string) :
    outcome (World * (option string * option error)) :=
  NewNamedGraphFromFile files w randString filepath.

Definition copy (w : World) (randString : string) (g : string) :
    outcome (World * string) :=
  match NewGraph w randString with
  | (_, inr err) => Panic err
  | (w, inl newg) =>
      o ← deref w g;
      let '(all, _) := allTriples o in
      '(w, _) ← at_ptr w newg (λ o, Add o all);
      Done (w, newg)
  end.

Definition Substract (w : World) (randString : string) (g other : string) :
    outcome (World * string) :=
  '(w, sub) ← copy w randString g;
  o ← deref w other;
  let '(others, _) := allTriples o in
  '(w, _) ← at_ptr w sub
     (λ o, let '(store, err) := RemoveTriples (storage_Graph o) others in
           (mkGraph store (triplesCount o), err));
  Done (w, sub).

(** The loop of [Intersect] over the triples of [g]. *)
Fixpoint Intersect_range (w : World) (inter other : string)
    (all : list Triple) : outcome World :=
  match all with
  | [] => Done w
  | tri :: rest =>
      o ← deref w other;
      let '(exists_, err) := Exist (storage_Graph o) tri in
      if exists_ && bool_decide (err = None) then
        '(w, _) ← at_ptr w inter (λ o, Add o [tri]);
        Intersect_range w inter other rest
      else Intersect_range w inter other rest
  end.

(** [Intersect]; [None] is the [nil] it returns when the scan of [g]
    fails. *)
Definition Intersect (w : World) (randString : string) (g other : string) :
    outcome (World * option string) :=
  match NewGraph w randString with
  | (_, inr err) => Panic err
  | (w, inl inter) =>
      o ← deref w g;
      match allTriples o with
      | (_, Some _) => Done (w, None)
      | (all, None) =>
          w ← Intersect_range w inter other all;
          Done (w, Some inter)
      end
  end.
End World.

(** ** Contracts of the store

    [facts s] is what a scan of [s] streams.  [AddLaws] is the part of "holds
    a set of facts" that concerns adding; [SetStore] adds that scans and adds
    do not fail and that removing removes. *)
Definition facts `{StorageGraph Sto} (s : Sto) : list Triple := (Triples s).1.

Class AddLaws (Sto : Type) `{StorageGraph Sto} : Prop := {
  facts_new : facts store_NewGraph = [];
  facts_add (s : Sto) ts t :
    t ∈ facts (AddTriples s ts).1 ↔ t ∈ facts s ∨ t ∈ ts }.

Class SetStore (Sto : Type) `{StorageGraph Sto} : Prop := {
  set_store_add :: AddLaws Sto;
  scan_ok (s : Sto) : (Triples s).2 = None;
  add_ok (s : Sto) ts : (AddTriples s ts).2 = None;
  facts_remove (s : Sto) ts t :
    t ∈ facts (RemoveTriples s ts).1 ↔ t ∈ facts s ∧ t ∉ ts }.

(** ** Two stores

    [memory]: a store as the specification describes the one behind
    [memory.DefaultStore], "a set of (subject, predicate, object) facts"
    with add, remove, existence check and full scan; no call fails.  The
    facts are kept in the order of arrival, each once; the properties below
    that concern every store do not depend on that order. *)
Definition memory : Type := list Triple.

Definition memory_add (s : memory) (t : Triple) : memory :=
  if bool_decide (t ∈ s) then s else s ++ [t].

#[global] Instance memory_store : StorageGraph memory := {|
  store_NewGraph := [];
  AddTriples s ts := (fold_left memory_add ts s, None);
  RemoveTriples s ts := (filter (λ t, t ∉ ts) s, None);
  Exist s t := (bool_decide (t ∈ s), None);
  Triples s := (s, None);
  TriplesForSubjectAndPredicate s n p :=
    (filter (λ t, Subject t = n ∧ Pred t = p) s, None) |}.

(** [flaky]: a store whose scan and existence check can be made to fail,
    the way a remote or broken [storage.Graph] would. *)
Record flaky := mkFlaky {
  held : list Triple;
  scan_error : option error;
  exist_error : list Triple }.

#[global] Instance flaky_store : StorageGraph flaky := {|
  store_NewGraph := mkFlaky [] None [];
  AddTriples s ts :=
    (mkFlaky (fold_left memory_add ts (held s)) (scan_error s) (exist_error s),
     None);
  RemoveTriples s ts :=
    (mkFlaky (filter (λ t, t ∉ ts) (held s)) (scan_error s) (exist_error s),
     None);
  Exist s t :=
    (bool_decide (t ∈ held s),
     if bool_decide (t ∈ exist_error s) then Some "exist: i/o error"%string
     else None);
  Triples s := (held s, scan_error s);
  TriplesForSubjectAndPredicate s n p :=
    (filter (λ t, Subject t = n ∧ Pred t = p) (held s), scan_error s) |}.

(** ** A text codec in the shape of badwolf's

    [subject TAB predicate TAB object], a node as [type<id>], a predicate as
    ["id"@[anchor]], a literal as ["value"^^type:T].  It is the codec of the
    examples below; the theorems hold for every codec. *)
Definition tab : string := String "009"%char EmptyString.
Definition quote : string := String "034"%char EmptyString.

Definition Node_String (n : Node) : string :=
  node_Type n +:+ "<" +:+ node_ID n +:+ ">".

Definition Predicate_String (p : Predicate) : string :=
  match p with
  | Immutable id => quote +:+ id +:+ quote +:+ "@[]"
  | Temporal id anchor => quote +:+ id +:+ quote +:+ "@[" +:+ anchor +:+ "]"
  end.

Definition Literal_String (l : Literal) : string :=
  quote +:+ lit_Value l +:+ quote +:+ "^^type:" +:+ lit_Type l.

Definition Object_String (o : Object) : string :=
  match o with
  | ObjNode n => Node_String n
  | ObjPredicate p => Predicate_String p
  | ObjLiteral l => Literal_String l
  end.

(** The text before and after the first [c] of [s]. *)
Fixpoint cut (c : ascii) (s : string) : option (string * string) :=
  match s with
  | EmptyString => None
  | String a r =>
      if Ascii.eqb a c then Some (EmptyString, r)
      else '(x, y) ← cut c r; Some (String a x, y)
  end.

Definition strip_prefix (p s : string) : option string :=
  if String.prefix p s
  then Some (String.substring (String.length p)
               (String.length s - String.length p) s)
  else None.

Definition parse_node (s : string) : option Node :=
  '(ty, r) ← cut "<" s;
  '(id, r) ← cut ">" r;
  if String.eqb r EmptyString then Some (mkNode ty id) else None.

Definition parse_predicate (s : string) : option Predicate :=
  r ← strip_prefix quote s;
  '(id, r) ← cut "034" r;
  r ← strip_prefix "@[" r;
  '(anchor, r) ← cut "]" r;
  if String.eqb r EmptyString
  then Some (if String.eqb anchor EmptyString then Immutable id
             else Temporal id anchor)
  else None.

Definition parse_literal (s : string) : option Literal :=
  r ← strip_prefix quote s;
  '(value, r) ← cut "034" r;
  ty ← strip_prefix "^^type:" r;
  Some (mkLiteral ty value).

Definition parse_object (s : string) : option Object :=
  match parse_node s, parse_literal s, parse_predicate s with
  | Some n, _, _ => Some (ObjNode n)
  | None, Some l, _ => Some (ObjLiteral l)
  | None, None, Some p => Some (ObjPredicate p)
  | None, None, None => None
  end.

Definition parse_line (line : string) : Triple + error :=
  match
    '(s, r) ← cut "009" line;
    '(p, o) ← cut "009" r;
    s ← parse_node s; p ← parse_predicate p; o ← parse_object o;
    Some (mkTriple s p o)
  with
  | Some t => inl t
  | None => inr ("triple.Parse: could not parse " +:+ line)
  end.

Definition tab_text : TripleText := {|
  Triple_String t :=
    Node_String (Subject t) +:+ tab +:+ Predicate_String (Pred t) +:+ tab
      +:+ Object_String (Obj t);
  triple_Parse := parse_line |}.

(** ** The hierarchy of the end-to-end example: a over b and c, c over d *)
Definition node_a : Node := mkNode "/n" "a".
Definition node_b : Node := mkNode "/n" "b".
Definition node_c : Node := mkNode "/n" "c".
Definition node_d : Node := mkNode "/n" "d".

Definition parent (p c : Node) : Triple := mkTriple p parentOf (ObjNode c).

Definition a_b : Triple := parent node_a node_b.
Definition a_c : Triple := parent node_a node_c.
Definition c_d : Triple := parent node_c node_d.

(** A fact whose object is a literal. *)
Definition b_named : Triple :=
  mkTriple node_b parentOf (ObjLiteral (mkLiteral "text" "bee")).

(** The visitor that records its calls, in order. *)
Definition collect (n : Node) (depth : Z) (seen : list (Node * Z)) :
    list (Node * Z) :=
  seen ++ [(n, depth)].

(** ** Results of the set algebra, as values *)
Section Results.
Context {text : TripleText} `{store : StorageGraph Sto}.

(** What [copy] builds: an empty graph to which the scan of [g] is added in
    one call. *)
Definition copy_of (o : Graph Sto) : Graph Sto :=
  (Add (mkGraph store_NewGraph 0) (allTriples o).1).1.

(** What [Substract] leaves behind [sub]. *)
Definition Substract_of (o other : Graph Sto) : Graph Sto :=
  mkGraph (RemoveTriples (storage_Graph (copy_of o)) (allTriples other).1).1
          (triplesCount (copy_of o)).

(** Whether [Intersect] keeps [tri]: [exists && err == nil]. *)
Definition passes (other : Graph Sto) (tri : Triple) : bool :=
  let '(exists_, err) := Exist (storage_Graph other) tri in
  exists_ && bool_decide (err = None).

(** The triples [Intersect] adds to [inter], one [Add] each. *)
Definition add_each (g : Graph Sto) (triples : list Triple) : Graph Sto :=
  fold_left (λ acc tri, (Add acc [tri]).1) triples g.

(** The same, as [Unmarshal] does it: up to the first [Add] that returns an
    error; [None] when one does. *)
Fixpoint add_all (g : Graph Sto) (triples : list Triple) :
    option (Graph Sto) :=
  match triples with
  | [] => Some g
  | tri :: rest =>
      match Add g [tri] with
      | (g', None) => add_all g' rest
      | (_, Some _) => None
      end
  end.

(** The lines [Unmarshal] does not skip, and what the parser makes of one. *)
Definition blank (line : bytes) : bool :=
  bytes_Equal (bytes_TrimSpace line) [].

Definition nonblank_lines (data : bytes) : list bytes :=
  filter (λ line, ¬ blank line) (bytes_Split data x0a).

Definition parse (line : bytes) : Triple + error :=
  triple_Parse (string_of_bytes line).

(** A triple whose text form the parser reads back, on one line that
    [Unmarshal] does not skip. *)
Definition reads_back (t : Triple) : Prop :=
  (triple_Parse (Triple_String t) = inl t) ∧
  (x0a ∉ bytes_of_string (Triple_String t)) ∧
  ¬ blank (bytes_of_string (Triple_String t)).

Definition Intersect_of (o other : Graph Sto) : Graph Sto :=
  add_each (mkGraph store_NewGraph 0)
           (filter (λ tri, passes other tri) (allTriples o).1).
End Results.

(** ** Example heaps over [memory] *)
Definition no_graphs : gmap string (Graph memory) := ∅.

Definition world_ab : gmap string (Graph memory) :=
  {[ "a" := mkGraph [a_b; a_c] 4; "b" := mkGraph [a_c] 2 ]}.

(** Heaps over [flaky]: [broken] cannot be scanned; [other] fails the
    existence check of [a_c]. *)
Definition world_flaky : gmap string (Graph flaky) :=
  {[ "a" := mkGraph (mkFlaky [a_b; a_c; c_d] None []) 3;
     "other" := mkGraph (mkFlaky [a_b; a_c] None [a_c]) 2;
     "broken" := mkGraph (mkFlaky [a_b] (Some "scan: i/o error"%string) []) 1 ]}.

(** Three lines and a blank one; the third line is not a triple. *)
Definition newline : string := String "010" EmptyString.

Definition text_with_error : bytes :=
  bytes_of_string
    (@Triple_String tab_text a_b +:+ newline +:+ "  " +:+ newline
     +:+ "not a triple" +:+ newline +:+ @Triple_String tab_text a_c).

(** The graph of the end-to-end example, its facts in an order in which the
    store may well return them, and one in which [b] has a literal under
    [parent_of]. *)
Definition example_graph : Graph memory := mkGraph [c_d; a_c; a_b] 3.

Definition graph_with_literal : Graph memory :=
  mkGraph [a_b; a_c; b_named; c_d] 4.

(** A file with a blank line and a line with one fact. *)
Definition one_fact_file : gmap string bytes :=
  {[ "graph.txt"%string :=
       bytes_of_string (newline +:+ @Triple_String tab_text a_b) ]}.

(** ** More of the store contract: the existence check

    [Exist] answers whether the fact is among those a scan streams, and
    does not fail. *)
Class ExistLaw (Sto : Type) `{StorageGraph Sto} : Prop := {
  exist_facts (s : Sto) t : Exist s t = (bool_decide (t ∈ facts s), None) }.


(** A file whose second line is not a triple. *)
Definition bad_file : gmap string bytes :=
  {[ "bad.txt"%string := text_with_error ]}.

(** The facts of the example graph, as another scan may return them. *)
Definition example_graph' : Graph memory := mkGraph [a_b; c_d; a_c] 3.

(** A graph that cannot be scanned. *)
Definition broken_graph : Graph flaky :=
  mkGraph (mkFlaky [a_b] (Some "scan: i/o error"%string) []) 1.

(** A text with the same fact on two lines and a blank line between. *)
Definition text_twice : bytes :=
  bytes_of_string
    (@Triple_String tab_text a_b +:+ newline +:+ newline
     +:+ @Triple_String tab_text a_b).

(** A graph in which [a] and [b] are each other's parent. *)
Definition cyclic_graph : Graph memory :=
  mkGraph [a_b; parent node_b node_a] 2.

(** ** [randString]

    [fmt.Sprintf("%d", n)] for an [int], and [randString] for the number
    [rando.Intn(1e16)] returned. *)
Definition fmt_Sprintf_d (n : Z) : string :=
  DecimalString.NilZero.string_of_int (Z.to_int n).

Definition randString (draw : Z) : string := fmt_Sprintf_d draw.

Definition is_digit (c : ascii) : bool :=
  (48 <=? nat_of_ascii c)%nat && (nat_of_ascii c <=? 57)%nat.

Fixpoint all_digits (s : string) : bool :=
  match s with
  | EmptyString => true
  | String c r => is_digit c && all_digits r
  end.

(** ** Facts that the text form does not frame *)

(** A fact whose object is a text with a line break in it. *)
Definition a_two_lines : Triple :=
  mkTriple node_a parentOf
    (ObjLiteral (mkLiteral "text" ("x" +:+ newline +:+ "y"))).

(** ** Siblings with one identifier *)

(** Two scans of the same [parent_of] facts: every node has the same
    children in both, in whatever order, and no two children of a node
    have the same identifier. *)
Definition same_children `{store : StorageGraph Sto} (g g' : Graph Sto) :
    Prop :=
  ∀ n, ∃ childs childs',
    childs_of g n = Some childs ∧ childs_of g' n = Some childs' ∧
    childs ≡ₚ childs' ∧ NoDup (map ID_String childs).

(** A root with two children of different types and the same identifier,
    and the two orders in which the store may return the two facts. *)
Definition node_r : Node := mkNode "/n" "r".
Definition node_ux : Node := mkNode "/u" "x".
Definition node_gx : Node := mkNode "/g" "x".

Definition tied_graph : Graph memory :=
  mkGraph [parent node_r node_ux; parent node_r node_gx] 2.

Definition tied_graph' : Graph memory :=
  mkGraph [parent node_r node_gx; parent node_r node_ux] 2.

(** ** Decimal numerals *)

(** The number a string of digits denotes in base ten, from [acc]. *)
Fixpoint decimal_from (acc : Z) (s : string) : Z :=
  match s with
  | EmptyString => acc
  | String c r => decimal_from (10 * acc + (Z.of_nat (nat_of_ascii c) - 48)) r
  end.

Definition decimal_value (s : string) : Z := decimal_from 0 s.

(** A numeral without a superfluous leading zero. *)
Definition no_leading_zero (s : string) : bool :=
  match s with
  | String "0" (String _ _) => false
  | _ => true
  end.

(** * Properties *)

(** ** Arithmetic on [int] *)

Lemma int_wrap_small z : int_min ≤ z ≤ int_max → int_wrap z = z.
Proof.
  unfold int_wrap, int_min, int_max. intros Hz.
  rewrite Z.mod_small by lia. lia.
Qed.

Lemma int_add_small a b :
  int_min ≤ a + b ≤ int_max → int_add a b = a + b.
Proof. apply int_wrap_small. Qed.

Lemma len_nonneg {A} (l : list A) : 0 ≤ len l.
Proof. unfold len. lia. Qed.

(** ** Pointers *)

Section WorldFacts.
Context {text : TripleText} `{store : StorageGraph Sto}.
Implicit Types w : gmap string (Graph Sto).

Lemma deref_Some w g o : w !! g = Some o → deref w g = Done o.
Proof. intros Hg. unfold deref. by rewrite Hg. Qed.

Lemma at_ptr_Some {A} w g o (method : Graph Sto → Graph Sto * A) :
  w !! g = Some o →
  at_ptr w g method = Done (<[g := (method o).1]> w, (method o).2).
Proof.
  intros Hg. unfold at_ptr. rewrite (deref_Some _ _ _ Hg). simpl.
  by destruct (method o).
Qed.

Lemma NewNamedGraph_fresh w name :
  w !! name = None →
  NewNamedGraph w name = (<[name := mkGraph store_NewGraph 0]> w, inl name).
Proof. intros Hn. unfold NewNamedGraph. by rewrite Hn. Qed.

Lemma NewNamedGraph_taken w name o :
  w !! name = Some o → ∃ err, NewNamedGraph w name = (w, inr err).
Proof. intros Hn. unfold NewNamedGraph. rewrite Hn. eauto. Qed.

Lemma Add_count (g : Graph Sto) ts :
  triplesCount (Add g ts).1 = int_add (triplesCount g) (len ts).
Proof. unfold Add. by destruct (AddTriples _ _). Qed.

Lemma Add_store (g : Graph Sto) ts :
  storage_Graph (Add g ts).1 = (AddTriples (storage_Graph g) ts).1.
Proof. unfold Add. by destruct (AddTriples _ _). Qed.

Lemma Add_error (g : Graph Sto) ts :
  (Add g ts).2 = (AddTriples (storage_Graph g) ts).2.
Proof. unfold Add. by destruct (AddTriples _ _). Qed.
End WorldFacts.

(** ** Construction from triples *)

(** C8: a graph made by [NewNamedGraphFromTriples] from [F] counts
    [2 * len(F)] triples: the counter is set to [len(F)] and [Add] adds
    [len(F)] to it again.  (The name must be free for a graph to be made;
    [2 * len(F)] is an [int] for every slice that fits in memory.) *)
Theorem NewNamedGraphFromTriples_counts_twice `{store : StorageGraph Sto}
    (w : gmap string (Graph Sto)) (name : string) (F : list Triple) :
  w !! name = None →
  2 * len F ≤ int_max →
  ∃ w' err o,
    NewNamedGraphFromTriples w name F = Done (w', (Some name, err)) ∧
    w' !! name = Some o ∧
    TriplesCount o = 2 * len F.
Proof.
  intros Hfree Hlen. unfold NewNamedGraphFromTriples.
  rewrite (NewNamedGraph_fresh _ _ Hfree).
  erewrite at_ptr_Some by apply lookup_insert_eq. simpl.
  erewrite at_ptr_Some by apply lookup_insert_eq. simpl.
  eexists _, _, _. split; [reflexivity|]. split; [apply lookup_insert_eq|].
  unfold TriplesCount. rewrite Add_count. simpl.
  pose proof (len_nonneg F). rewrite int_add_small; unfold int_min, int_max in *; lia.
Qed.

Example tab_text_round_trip :
  map (λ t, @triple_Parse tab_text (@Triple_String tab_text t))
      [a_b; a_c; c_d; b_named]
  = map inl [a_b; a_c; c_d; b_named].
Proof. vm_compute. reflexivity. Qed.

(** ** Subtraction *)

Section SubstractFacts.
Context {text : TripleText} `{store : StorageGraph Sto}.
Implicit Types w : gmap string (Graph Sto).

Lemma lookup_fresh_ne w (name g : string) o :
  w !! name = None → w !! g = Some o → name ≠ g.
Proof. intros Hn Hg ->. congruence. Qed.

Lemma copy_fresh w randString g o :
  w !! randString = None → w !! g = Some o →
  copy w randString g = Done (<[randString := copy_of o]> w, randString).
Proof.
  intros Hfree Hg. unfold copy, NewGraph.
  rewrite (NewNamedGraph_fresh _ _ Hfree).
  pose proof (lookup_fresh_ne _ _ _ _ Hfree Hg) as Hne.
  erewrite deref_Some by (rewrite lookup_insert_ne; [exact Hg | exact Hne]).
  simpl. destruct (allTriples o) as [all e] eqn:Hall.
  erewrite at_ptr_Some by apply lookup_insert_eq. simpl.
  rewrite insert_insert_eq. unfold copy_of. by rewrite Hall.
Qed.

Lemma copy_taken w randString g o :
  w !! randString = Some o → ∃ err, copy w randString g = Panic err.
Proof.
  intros Hn. unfold copy, NewGraph.
  destruct (NewNamedGraph_taken _ _ _ Hn) as [err ->]. eauto.
Qed.

Lemma Substract_fresh w randString g other o o' :
  w !! randString = None → w !! g = Some o → w !! other = Some o' →
  Substract w randString g other
  = Done (<[randString := Substract_of o o']> w, randString).
Proof.
  intros Hfree Hg Hother. unfold Substract.
  rewrite (copy_fresh _ _ _ _ Hfree Hg). simpl.
  pose proof (lookup_fresh_ne _ _ _ _ Hfree Hother) as Hne.
  erewrite deref_Some by (rewrite lookup_insert_ne; [exact Hother | exact Hne]).
  simpl. destruct (allTriples o') as [others e] eqn:Hothers.
  erewrite at_ptr_Some by apply lookup_insert_eq. simpl.
  rewrite insert_insert_eq. unfold Substract_of. rewrite Hothers. simpl.
  by destruct (RemoveTriples _ _).
Qed.
End SubstractFacts.

(** C9, as the code has it: the graph [Substract] returns counts the triples
    of [g] once.  [copy] starts from [NewGraph], whose counter is 0, and adds
    the scan of [g] in one [Add]; nothing presets the counter. *)
Theorem Substract_counts_once `{store : StorageGraph Sto}
    (w : gmap string (Graph Sto)) (randString g other : string)
    (o o' : Graph Sto) :
  w !! randString = None → w !! g = Some o → w !! other = Some o' →
  len (allTriples o).1 ≤ int_max →
  ∃ w' sub,
    Substract w randString g other = Done (w', randString) ∧
    w' !! randString = Some sub ∧
    TriplesCount sub = len (allTriples o).1.
Proof.
  intros Hfree Hg Hother Hlen.
  eexists _, _. split; [by apply Substract_fresh|].
  split; [apply lookup_insert_eq|].
  unfold TriplesCount, Substract_of, copy_of. simpl. rewrite Add_count. simpl.
  pose proof (len_nonneg (allTriples o).1).
  rewrite int_add_small; unfold int_min, int_max in *; lia.
Qed.

Lemma NewNamedGraphFromTriples_counts_twice_witness :
  (no_graphs !! "g" = None ∧ 2 * len [a_b; a_c] ≤ int_max) ∧
  ∃ w' err o,
    NewNamedGraphFromTriples no_graphs "g" [a_b; a_c]
      = Done (w', (Some "g", err)) ∧
    w' !! "g" = Some o ∧ TriplesCount o = 2 * len [a_b; a_c].
Proof.
  assert (Hfree : no_graphs !! "g" = None) by reflexivity.
  assert (Hlen : 2 * len [a_b; a_c] ≤ int_max) by (by vm_compute).
  split; [by split|].
  exact (NewNamedGraphFromTriples_counts_twice
           no_graphs "g" [a_b; a_c] Hfree Hlen).
Defined.

Lemma Substract_counts_once_witness :
  ∃ w' sub,
    Substract world_ab "s" "a" "b" = Done (w', "s") ∧
    w' !! "s" = Some sub ∧ TriplesCount sub = 2.
Proof.
  assert (Hfree : world_ab !! "s" = None) by reflexivity.
  assert (Ha : world_ab !! "a" = Some (mkGraph [a_b; a_c] 4)) by reflexivity.
  assert (Hb : world_ab !! "b" = Some (mkGraph [a_c] 2)) by reflexivity.
  assert (Hlen : len (allTriples (mkGraph [a_b; a_c] 4)).1 ≤ int_max)
    by (by vm_compute).
  exact (Substract_counts_once world_ab "s" "a" "b"
           _ _ Hfree Ha Hb Hlen).
Defined.

(** C9 as stated fails: the copy of a graph with two facts counts 2, not 4. *)
Lemma Substract_count_not_doubled :
  ∃ o w' sub,
    world_ab !! "a" = Some o ∧
    Substract world_ab "s" "a" "b" = Done (w', "s") ∧
    w' !! "s" = Some sub ∧
    TriplesCount sub ≠ 2 * len (allTriples o).1.
Proof.
  eexists _, _, _. split; [reflexivity|].
  split; [apply (Substract_fresh); reflexivity|].
  split; [apply lookup_insert_eq|]. by vm_compute.
Qed.

(** ** The two stores keep their contracts *)

Lemma memory_add_fold (ts s : list Triple) t :
  t ∈ fold_left memory_add ts s ↔ t ∈ s ∨ t ∈ ts.
Proof.
  revert s. induction ts as [|t' ts IH]; intros s; simpl.
  - rewrite elem_of_nil. tauto.
  - rewrite IH, elem_of_cons. unfold memory_add. case_bool_decide as Hin.
    + split; [tauto|]. intros [?|[->|?]]; tauto.
    + rewrite elem_of_app, list_elem_of_singleton. tauto.
Qed.

#[global] Instance memory_AddLaws : AddLaws memory.
Proof.
  split; [reflexivity|]. intros s ts t. apply memory_add_fold.
Qed.

#[global] Instance memory_SetStore : SetStore memory.
Proof.
  split; [apply _ | reflexivity | reflexivity |].
  intros s ts t. unfold facts. simpl. by rewrite list_elem_of_filter, (comm and).
Qed.

#[global] Instance flaky_AddLaws : AddLaws flaky.
Proof.
  split; [reflexivity|]. intros s ts t. apply memory_add_fold.
Qed.

(** ** Intersection *)

Section IntersectFacts.
Context `{store : StorageGraph Sto}.
Implicit Types w : gmap string (Graph Sto).

Lemma passes_true (other : Graph Sto) tri :
  passes other tri = true ↔ Exist (storage_Graph other) tri = (true, None).
Proof.
  unfold passes. destruct (Exist _ _) as [[] [e|]]; simpl; split; intros Heq;
    try done; try (by inversion Heq).
Qed.

Lemma passes_if {X} (other : Graph Sto) tri (a b : X) :
  (let '(exists_, err) := Exist (storage_Graph other) tri in
   if exists_ && bool_decide (err = None) then a else b)
  = if passes other tri then a else b.
Proof. unfold passes. by destruct (Exist _ _). Qed.

Lemma Intersect_range_eq w inter other oi o' all :
  inter ≠ other → w !! inter = Some oi → w !! other = Some o' →
  Intersect_range w inter other all
  = Done (<[inter := add_each oi (filter (λ tri, passes o' tri) all)]> w).
Proof.
  intros Hne. revert w oi. induction all as [|tri rest IH]; intros w oi Hi Ho.
  - simpl. by rewrite insert_id.
  - cbn [Intersect_range]. rewrite (deref_Some _ _ _ Ho). simpl.
    rewrite passes_if, filter_cons.
    destruct (passes o' tri) eqn:Hpass.
    + rewrite (at_ptr_Some _ _ _ _ Hi). simpl.
      erewrite IH; [|apply lookup_insert_eq|by rewrite lookup_insert_ne].
      by rewrite insert_insert_eq.
    + by apply IH.
Qed.

Lemma Intersect_scanned w randString g other o o' :
  w !! randString = None → w !! g = Some o → w !! other = Some o' →
  (allTriples o).2 = None →
  Intersect w randString g other
  = Done (<[randString := Intersect_of o o']> w, Some randString).
Proof.
  intros Hfree Hg Hother Hscan. unfold Intersect, NewGraph.
  rewrite (NewNamedGraph_fresh _ _ Hfree).
  pose proof (lookup_fresh_ne _ _ _ _ Hfree Hg) as Hne.
  pose proof (lookup_fresh_ne _ _ _ _ Hfree Hother) as Hne'.
  erewrite deref_Some by (rewrite lookup_insert_ne; [exact Hg | exact Hne]).
  simpl. destruct (allTriples o) as [all e] eqn:Hall. simpl in Hscan. subst e.
  erewrite Intersect_range_eq;
    [|exact Hne'|apply lookup_insert_eq|by rewrite lookup_insert_ne].
  simpl. rewrite insert_insert_eq. unfold Intersect_of. by rewrite Hall.
Qed.

Lemma Intersect_scan_failed w randString g other o e :
  w !! randString = None → w !! g = Some o →
  (allTriples o).2 = Some e →
  Intersect w randString g other
  = Done (<[randString := mkGraph store_NewGraph 0]> w, None).
Proof.
  intros Hfree Hg Hscan. unfold Intersect, NewGraph.
  rewrite (NewNamedGraph_fresh _ _ Hfree).
  pose proof (lookup_fresh_ne _ _ _ _ Hfree Hg) as Hne.
  erewrite deref_Some by (rewrite lookup_insert_ne; [exact Hg | exact Hne]).
  simpl. destruct (allTriples o) as [all e']. simpl in Hscan. by subst e'.
Qed.

Lemma facts_add_each `{!AddLaws Sto} (g : Graph Sto) triples t :
  t ∈ facts (storage_Graph (add_each g triples))
  ↔ t ∈ facts (storage_Graph g) ∨ t ∈ triples.
Proof.
  unfold add_each. revert g.
  induction triples as [|tri rest IH]; intros g; simpl.
  - rewrite elem_of_nil. tauto.
  - rewrite IH, Add_store, facts_add, !elem_of_cons, elem_of_nil. tauto.
Qed.
End IntersectFacts.

(** C4: [Intersect] returns a graph that holds a fact exactly when the scan
    of [g] gave it and [other.Exist] answered [true] with no error.  A fact
    whose check fails is left out, and the call still returns its graph:
    nothing of the check's error reaches the caller. *)
Theorem Intersect_keeps_checked `{store : StorageGraph Sto} `{!AddLaws Sto}
    (w : gmap string (Graph Sto)) (randString g other : string)
    (o o' : Graph Sto) :
  w !! randString = None → w !! g = Some o → w !! other = Some o' →
  (allTriples o).2 = None →
  ∃ w' inter,
    Intersect w randString g other = Done (w', Some randString) ∧
    w' !! randString = Some inter ∧
    (∀ t, t ∈ facts (storage_Graph inter)
          ↔ t ∈ (allTriples o).1 ∧ Exist (storage_Graph o') t = (true, None)) ∧
    (∀ t e, (Exist (storage_Graph o') t).2 = Some e →
            t ∉ facts (storage_Graph inter)).
Proof.
  intros Hfree Hg Hother Hscan.
  assert (Hin : ∀ t, t ∈ facts (storage_Graph (Intersect_of o o'))
      ↔ t ∈ (allTriples o).1 ∧ Exist (storage_Graph o') t = (true, None)).
  { intros t. unfold Intersect_of. rewrite facts_add_each. simpl.
    rewrite facts_new, elem_of_nil, list_elem_of_filter, <- passes_true.
    rewrite Is_true_true. tauto. }
  eexists _, _. split; [by apply Intersect_scanned|].
  split; [apply lookup_insert_eq|]. split; [exact Hin|].
  intros t e He [_ Hex]%Hin. rewrite Hex in He. done.
Qed.

Lemma Intersect_keeps_checked_witness :
  ∃ w' inter,
    Intersect world_flaky "i" "a" "other" = Done (w', Some "i"%string) ∧
    w' !! "i" = Some inter ∧
    (∀ t, t ∈ facts (storage_Graph inter)
          ↔ t ∈ [a_b; a_c; c_d] ∧
            Exist (mkFlaky [a_b; a_c] None [a_c]) t = (true, None)) ∧
    (∀ t e, (Exist (mkFlaky [a_b; a_c] None [a_c]) t).2 = Some e →
            t ∉ facts (storage_Graph inter)).
Proof.
  assert (Hfree : world_flaky !! "i" = None) by reflexivity.
  assert (Ha : world_flaky !! "a"
               = Some (mkGraph (mkFlaky [a_b; a_c; c_d] None []) 3))
    by reflexivity.
  assert (Hother : world_flaky !! "other"
                   = Some (mkGraph (mkFlaky [a_b; a_c] None [a_c]) 2))
    by reflexivity.
  exact (Intersect_keeps_checked world_flaky "i" "a" "other" _ _
           Hfree Ha Hother eq_refl).
Defined.

Example Intersect_skips_failed_check :
  ∃ w', Intersect world_flaky "i" "a" "other" = Done (w', Some "i"%string) ∧
        facts ∘ storage_Graph <$> w' !! "i" = Some [a_b].
Proof. eexists. split; [by apply Intersect_scanned|]. reflexivity. Qed.

(** C10: when the scan of [g] fails, [Intersect] returns [nil] and nothing
    else (the empty graph it made stays in the store); when the scan
    succeeds it returns the graph it made.  A [nil] result is the only sign
    of the failure. *)
Theorem Intersect_nil_when_scan_fails `{store : StorageGraph Sto}
    (w : gmap string (Graph Sto)) (randString g other : string)
    (o : Graph Sto) :
  w !! randString = None → w !! g = Some o →
  (∀ e, (allTriples o).2 = Some e →
        Intersect w randString g other
        = Done (<[randString := mkGraph store_NewGraph 0]> w, None)) ∧
  (∀ o', (allTriples o).2 = None → w !! other = Some o' →
         ∃ w', Intersect w randString g other = Done (w', Some randString)).
Proof.
  intros Hfree Hg. split.
  - intros e He. by eapply Intersect_scan_failed.
  - intros o' Hscan Hother. eexists. by apply Intersect_scanned.
Qed.

Lemma Intersect_nil_when_scan_fails_witness :
  Intersect world_flaky "i" "broken" "other"
  = Done (<["i" := mkGraph store_NewGraph 0]> world_flaky, None).
Proof.
  assert (Hfree : world_flaky !! "i" = None) by reflexivity.
  assert (Hg : world_flaky !! "broken" = Some
            (mkGraph (mkFlaky [a_b] (Some "scan: i/o error"%string) []) 1))
    by reflexivity.
  exact (proj1 (Intersect_nil_when_scan_fails world_flaky "i" "broken" "other"
                  _ Hfree Hg) _ eq_refl).
Defined.

(** C3: [Substract] returns a new graph that holds exactly the facts of [g]
    that are not facts of [other], and leaves the heap as it was but for the
    new graph; [g] and [other] in particular are as before. *)
Theorem Substract_is_difference `{store : StorageGraph Sto} `{!SetStore Sto}
    (w : gmap string (Graph Sto)) (randString g other : string)
    (o o' : Graph Sto) :
  w !! randString = None → w !! g = Some o → w !! other = Some o' →
  ∃ w' sub,
    Substract w randString g other = Done (w', randString) ∧
    w' !! randString = Some sub ∧
    (∀ t, t ∈ facts (storage_Graph sub)
          ↔ t ∈ facts (storage_Graph o) ∧ t ∉ facts (storage_Graph o')) ∧
    w' !! g = Some o ∧ w' !! other = Some o' ∧
    (∀ p, p ≠ randString → w' !! p = w !! p).
Proof.
  intros Hfree Hg Hother.
  pose proof (lookup_fresh_ne _ _ _ _ Hfree Hg) as Hne.
  pose proof (lookup_fresh_ne _ _ _ _ Hfree Hother) as Hne'.
  eexists _, _. split; [by apply Substract_fresh|].
  split; [apply lookup_insert_eq|]. split; [|split; [|split]].
  - intros t. unfold Substract_of, copy_of. simpl.
    rewrite facts_remove, Add_store, facts_add. simpl.
    rewrite facts_new, elem_of_nil. unfold allTriples, facts. tauto.
  - by rewrite lookup_insert_ne.
  - by rewrite lookup_insert_ne.
  - intros p Hp. by rewrite lookup_insert_ne.
Qed.

Lemma Substract_is_difference_witness :
  ∃ w' sub,
    Substract world_ab "s" "a" "b" = Done (w', "s"%string) ∧
    w' !! "s" = Some sub ∧
    (∀ t, t ∈ facts (storage_Graph sub) ↔ t ∈ [a_b; a_c] ∧ t ∉ [a_c]) ∧
    w' !! "a" = Some (mkGraph [a_b; a_c] 4) ∧
    w' !! "b" = Some (mkGraph [a_c] 2) ∧
    (∀ p, p ≠ "s"%string → w' !! p = world_ab !! p).
Proof.
  assert (Hfree : world_ab !! "s" = None) by reflexivity.
  assert (Ha : world_ab !! "a" = Some (mkGraph [a_b; a_c] 4)) by reflexivity.
  assert (Hb : world_ab !! "b" = Some (mkGraph [a_c] 2)) by reflexivity.
  exact (Substract_is_difference world_ab "s" "a" "b" _ _ Hfree Ha Hb).
Defined.

Example Substract_example :
  ∃ w', Substract world_ab "s" "a" "b" = Done (w', "s"%string) ∧
        w' !! "s" = Some (mkGraph [a_b] 2).
Proof. eexists. split; [by apply Substract_fresh|]. reflexivity. Qed.

(** ** The order of Go strings *)

Lemma ltb_Lt a b : String.ltb a b = true ↔ String.compare a b = Lt.
Proof. unfold String.ltb. destruct (String.compare a b); split; congruence. Qed.

Lemma ltb_trans a b c :
  String.ltb a b = true → String.ltb b c = true → String.ltb a c = true.
Proof.
  rewrite !ltb_Lt. intros Hab Hbc.
  apply OrderedTypeEx.String_as_OT.cmp_lt.
  eapply OrderedTypeEx.String_as_OT.lt_trans;
    apply OrderedTypeEx.String_as_OT.cmp_lt; eassumption.
Qed.

Lemma ltb_irrefl a : String.ltb a a = false.
Proof.
  unfold String.ltb. pose proof (String.compare_antisym a a) as Hc.
  destruct (String.compare a a); simpl in Hc; congruence.
Qed.

Lemma ltb_asym a b : String.ltb a b = true → str_le a b.
Proof.
  intros Hab. unfold str_le. destruct (String.ltb b a) eqn:Hba; [|done].
  pose proof (ltb_trans _ _ _ Hab Hba) as Haa. by rewrite ltb_irrefl in Haa.
Qed.

Lemma str_le_cases a b : str_le a b ↔ a = b ∨ String.ltb a b = true.
Proof.
  unfold str_le, String.ltb. rewrite (String.compare_antisym b a).
  destruct (String.compare a b) eqn:Hc; simpl.
  - apply String.compare_eq_iff in Hc. tauto.
  - tauto.
  - split; [done|]. intros [->|?]; [|done].
    pose proof (String.compare_antisym b b) as Hb. rewrite Hc in Hb. done.
Qed.

#[global] Instance str_le_refl : Reflexive str_le.
Proof. intros a. apply ltb_irrefl. Qed.

#[global] Instance str_le_trans : Transitive str_le.
Proof.
  intros a b c [->|Hab]%str_le_cases [->|Hbc]%str_le_cases;
    apply str_le_cases; eauto using ltb_trans.
Qed.

Lemma str_le_antisym a b : str_le a b → str_le b a → a = b.
Proof.
  intros [->|Hab]%str_le_cases Hba; [done|]. unfold str_le in Hba. congruence.
Qed.

Lemma str_le_total a b : str_le a b ∨ str_le b a.
Proof.
  destruct (String.ltb a b) eqn:Hab; [left; by apply ltb_asym | by right].
Qed.

#[global] Instance le_by_trans {A} (key : A → string) : Transitive (le_by key).
Proof. intros x y z. unfold le_by. apply str_le_trans. Qed.

(** ** [sort.Sort] *)

Section SortFacts.
Context {A : Type} (key : A → string).

Local Abbreviation less := (less_by key).

Lemma sort_insert_perm x l : sort_insert less x l ≡ₚ x :: l.
Proof.
  induction l as [|y r IH]; simpl; [done|].
  destruct (less y x); [|done]. rewrite IH. apply Permutation_swap.
Qed.

Lemma sort_Sort_perm l : sort_Sort less l ≡ₚ l.
Proof.
  induction l as [|x l IH]; simpl; [done|].
  by rewrite sort_insert_perm, IH.
Qed.

Lemma sort_insert_sorted x l :
  StronglySorted (le_by key) l → StronglySorted (le_by key) (sort_insert less x l).
Proof.
  induction 1 as [|y r Hr IH Hy]; simpl.
  - repeat constructor.
  - destruct (less y x) eqn:Hyx.
    + constructor; [done|]. rewrite sort_insert_perm.
      constructor; [by apply ltb_asym | done].
    + assert (le_by key x y) as Hxy by exact Hyx.
      constructor; [by constructor|]. constructor; [done|].
      eapply Forall_impl; [exact Hy|]. intros z Hz. by etrans.
Qed.

Lemma sort_Sort_sorted l : StronglySorted (le_by key) (sort_Sort less l).
Proof.
  induction l as [|x l IH]; simpl; [constructor|].
  by apply sort_insert_sorted.
Qed.

(** Two ascending arrangements of the same elements agree when the keys of
    the elements are pairwise distinct. *)
Lemma sorted_perm_unique l1 l2 :
  NoDup (map key l1) → l1 ≡ₚ l2 →
  StronglySorted (le_by key) l1 → StronglySorted (le_by key) l2 → l1 = l2.
Proof.
  intros Hnd Hperm Hs1. revert l2 Hperm.
  induction Hs1 as [|x l1 Hs1 IH Hx]; intros l2 Hperm Hs2.
  - by apply Permutation_nil_l in Hperm.
  - destruct Hs2 as [|y l2 Hs2 Hy].
    { by apply Permutation_nil_r in Hperm. }
    apply NoDup_cons in Hnd as [Hnx Hnd].
    assert (key x = key y) as Hk.
    { apply str_le_antisym.
      - assert (y ∈ x :: l1) as [->|Hin]%elem_of_cons
          by (rewrite Hperm; left); [done|].
        by apply (proj1 (Forall_forall _ _) Hx).
      - assert (x ∈ y :: l2) as [->|Hin]%elem_of_cons
          by (rewrite <- Hperm; left); [done|].
        by apply (proj1 (Forall_forall _ _) Hy). }
    assert (x = y) as <-.
    { assert (y ∈ x :: l1) as [->|Hin]%elem_of_cons
        by (rewrite Hperm; left); [done|].
      destruct Hnx. rewrite Hk. by apply list_elem_of_fmap_2. }
    f_equal. apply IH; [done| |done]. by apply Permutation_cons_inv in Hperm.
Qed.

Lemma sort_Sort_perm_eq l1 l2 :
  NoDup (map key l1) → l1 ≡ₚ l2 → sort_Sort less l1 = sort_Sort less l2.
Proof.
  intros Hnd Hperm. apply sorted_perm_unique.
  - by rewrite sort_Sort_perm.
  - by rewrite !sort_Sort_perm.
  - apply sort_Sort_sorted.
  - apply sort_Sort_sorted.
Qed.
End SortFacts.

Example Go_string_order :
  String.ltb "b" "c" = true ∧ String.ltb "B" "a" = true ∧
  String.ltb "a" "ab" = true ∧ String.ltb "a" "B" = false.
Proof. by vm_compute. Qed.

(** ** [bytes.TrimSpace], [bytes.Join] and [bytes.Split] *)

Lemma space_rune_shorter (l r : bytes) :
  space_rune l = Some r → (length r < length l)%nat.
Proof.
  unfold space_rune. intros Hr.
  repeat (case_match; try discriminate); simplify_eq; simpl; lia.
Qed.

Lemma whitespace_only_step (l r : bytes) :
  space_rune l = Some r → whitespace_only l ↔ whitespace_only r.
Proof.
  intros Hr. split.
  - inversion 1 as [|? r' Hr' Hw]; subst; [done|]. congruence.
  - by apply whitespace_rune.
Qed.

Lemma trim_left_stops fuel (l : bytes) :
  (length l ≤ fuel)%nat →
  trim_left fuel l = [] ∨ space_rune (trim_left fuel l) = None.
Proof.
  revert l. induction fuel as [|fuel IH]; intros l Hl; simpl.
  - destruct l; [by left|simpl in Hl; lia].
  - destruct (space_rune l) as [r|] eqn:Hr; [|by right].
    apply IH. apply space_rune_shorter in Hr. lia.
Qed.

Lemma trim_left_nil fuel (l : bytes) :
  (length l ≤ fuel)%nat → trim_left fuel l = [] ↔ whitespace_only l.
Proof.
  revert l. induction fuel as [|fuel IH]; intros l Hl; simpl.
  - destruct l; [|simpl in Hl; lia]. split; [constructor|done].
  - destruct (space_rune l) as [r|] eqn:Hr.
    + rewrite (whitespace_only_step _ _ Hr). apply IH.
      apply space_rune_shorter in Hr. lia.
    + split; [intros ->; constructor|].
      inversion 1 as [|? r' Hr' Hw]; subst; [done|congruence].
Qed.

(** The test of [Unmarshal] holds of the lines made of white space only. *)
Lemma blank_whitespace_only (line : bytes) :
  blank line ↔ whitespace_only line.
Proof.
  unfold blank, bytes_Equal, bytes_TrimSpace. rewrite bool_decide_spec.
  rewrite <- (trim_left_nil (length line) line) by done.
  fold (bytes_TrimLeftSpace line).
  destruct (trim_left_stops (length line) line) as [Hnil|Hstop]; [done|..].
  { fold (bytes_TrimLeftSpace line) in Hnil. by rewrite Hnil. }
  fold (bytes_TrimLeftSpace line) in Hstop.
  destruct (bytes_TrimLeftSpace line) as [|b r] eqn:Hx; [done|].
  cbn [bytes_TrimRightSpace]. unfold bytes_TrimLeftSpace at 1.
  cbn [length trim_left]. rewrite Hstop. done.
Qed.

Example blank_lines :
  blank (bytes_of_string "  ") ∧ blank [x09; xc2; xa0; xe2; x80; x83; x0d] ∧
  ¬ blank (bytes_of_string " a ") ∧ ¬ blank [xc2; x20].
Proof. by vm_compute. Qed.

Lemma filter_all {A} (P : A → Prop) `{!∀ x, Decision (P x)} (l : list A) :
  Forall P l → filter P l = l.
Proof.
  induction 1 as [|x l Hx _ IH]; [done|].
  by rewrite filter_cons_True, IH.
Qed.

Lemma fold_join (sep : bytes) (rest : list bytes) (first : bytes) :
  fold_left (λ b v, b ++ sep ++ v) rest first
  = first ++ concat (map (λ v, sep ++ v) rest).
Proof.
  revert first. induction rest as [|v rest IH]; intros first; simpl.
  - by rewrite app_nil_r.
  - by rewrite IH, <- !app_assoc.
Qed.

Lemma bytes_Join_cons (sep first : bytes) (rest : list bytes) :
  bytes_Join (first :: rest) sep = first ++ concat (map (λ v, sep ++ v) rest).
Proof. apply fold_join. Qed.

(** Joined lines, each followed by the separator, but for the last. *)
Lemma bytes_Join_separates (sep : bytes) (lines : list bytes) :
  lines ≠ [] →
  bytes_Join lines sep ++ sep = concat (map (λ v, v ++ sep) lines).
Proof.
  destruct lines as [|first rest]; [done|]. intros _.
  rewrite bytes_Join_cons. revert first.
  induction rest as [|v rest IH]; intros first; simpl.
  - by rewrite !app_nil_r.
  - specialize (IH v). cbn [map concat] in IH |- *.
    rewrite <- ?List.app_assoc in IH. rewrite <- !List.app_assoc.
    by rewrite IH.
Qed.

Lemma bytes_Split_no_sep (l : bytes) (sep : byte) :
  sep ∉ l → bytes_Split l sep = [l].
Proof.
  induction l as [|b l IH]; intros Hl; simpl; [done|].
  apply not_elem_of_cons in Hl as [Hb Hl].
  destruct (Byte.eqb b sep) eqn:Heq.
  - apply Byte.byte_dec_bl in Heq. congruence.
  - by rewrite IH.
Qed.

Lemma bytes_Split_app (l r : bytes) (sep : byte) :
  sep ∉ l → bytes_Split (l ++ sep :: r) sep = l :: bytes_Split r sep.
Proof.
  induction l as [|b l IH]; intros Hl; simpl.
  - assert (Byte.eqb sep sep = true) as -> by by apply Byte.byte_dec_lb.
    done.
  - apply not_elem_of_cons in Hl as [Hb Hl].
    destruct (Byte.eqb b sep) eqn:Heq.
    + apply Byte.byte_dec_bl in Heq. congruence.
    + by rewrite IH.
Qed.

Lemma bytes_Split_Join (lines : list bytes) (sep : byte) :
  lines ≠ [] → Forall (λ l, sep ∉ l) lines →
  bytes_Split (bytes_Join lines [sep]) sep = lines.
Proof.
  destruct lines as [|first rest]; [done|]. intros _ Hall.
  rewrite bytes_Join_cons. revert first Hall.
  induction rest as [|v rest IH]; intros first Hall; simpl.
  - rewrite app_nil_r. apply bytes_Split_no_sep. by inversion Hall.
  - inversion Hall as [|? ? Hfirst Hrest]; subst.
    rewrite bytes_Split_app by done. f_equal. by apply IH.
Qed.

(** ** The text form *)

Section MarshalFacts.
Context {text : TripleText} `{store : StorageGraph Sto}.

Lemma Marshal_scanned (g : Graph Sto) triples :
  allTriples g = (triples, None) →
  Marshal g
  = (Some (bytes_Join
             (map (λ t, bytes_of_string (Triple_String t))
                  (sort_Sort tripleSorter_Less triples)) [x0a]), None).
Proof. intros Hscan. unfold Marshal. by rewrite Hscan. Qed.

Lemma Marshal_scan_failed (g : Graph Sto) triples err :
  allTriples g = (triples, Some err) → Marshal g = (None, Some err).
Proof. intros Hscan. unfold Marshal. by rewrite Hscan. Qed.

Lemma Unmarshal_lines_skip (g : Graph Sto) lines :
  Unmarshal_lines g lines
  = Unmarshal_lines g (filter (λ line, ¬ blank line) lines).
Proof.
  revert g. induction lines as [|line rest IH]; intros g; [done|].
  rewrite filter_cons. cbn [Unmarshal_lines]. fold (blank line).
  destruct (blank line) eqn:Hb.
  - rewrite decide_False by (by intros []). apply IH.
  - rewrite decide_True by (by intros ?). cbn [Unmarshal_lines].
    fold (blank line). rewrite Hb.
    destruct (triple_Parse _); [|done].
    destruct (Add g [t]) as [g' [e|]]; [done|]. apply IH.
Qed.

Lemma Unmarshal_lines_app (g g' : Graph Sto) pre rest ts :
  Forall (λ line, ¬ blank line) pre →
  map parse pre = map inl ts → add_all g ts = Some g' →
  Unmarshal_lines g (pre ++ rest) = Unmarshal_lines g' rest.
Proof.
  intros Hpre. revert g ts.
  induction Hpre as [|line pre Hline Hpre IH]; intros g ts Hparse Hadd.
  - destruct ts; [|done]. simpl in Hadd. by inversion Hadd.
  - destruct ts as [|t ts]; [done|]. simpl in Hparse.
    inversion Hparse as [[Hline' Hrest]].
    cbn [app Unmarshal_lines]. fold (blank line).
    destruct (blank line); [by destruct Hline|].
    unfold parse in Hline'. rewrite Hline'.
    simpl in Hadd. destruct (Add g [t]) as [g1 [e|]]; [done|].
    by eapply IH.
Qed.

Lemma nonblank_lines_Forall data :
  Forall (λ line, ¬ blank line) (nonblank_lines data).
Proof. apply Forall_forall. intros line. by intros [? _]%list_elem_of_filter. Qed.

Lemma facts_add_all `{!AddLaws Sto} (g g' : Graph Sto) ts :
  add_all g ts = Some g' →
  ∀ t, t ∈ facts (storage_Graph g') ↔ t ∈ facts (storage_Graph g) ∨ t ∈ ts.
Proof.
  revert g. induction ts as [|tri ts IH]; intros g Hadd t; simpl in Hadd.
  - inversion Hadd. rewrite elem_of_nil. tauto.
  - pose proof (Add_store g [tri]) as Hstore.
    destruct (Add g [tri]) as [g1 [e|]]; [done|].
    rewrite (IH _ Hadd). simpl in Hstore.
    rewrite Hstore, facts_add, !elem_of_cons, elem_of_nil. tauto.
Qed.

Lemma Unmarshal_all_lines (g g' : Graph Sto) data ts :
  map parse (nonblank_lines data) = map inl ts → add_all g ts = Some g' →
  Unmarshal g data = (g', None).
Proof.
  intros Hparse Hadd. unfold Unmarshal. rewrite Unmarshal_lines_skip.
  fold (nonblank_lines data). rewrite <- (app_nil_r (nonblank_lines data)).
  rewrite (Unmarshal_lines_app g g' _ [] ts);
    [done|apply nonblank_lines_Forall|done|done].
Qed.

Lemma add_all_total `{!SetStore Sto} (g : Graph Sto) ts :
  ∃ g', add_all g ts = Some g'.
Proof.
  revert g. induction ts as [|tri ts IH]; intros g; simpl; [by eexists|].
  pose proof (Add_error g [tri]) as Herr. rewrite add_ok in Herr.
  destruct (Add g [tri]) as [g1 e]. simpl in Herr. subst e. apply IH.
Qed.

Lemma allTriples_scanned `{!SetStore Sto} (g : Graph Sto) :
  allTriples g = (facts (storage_Graph g), None).
Proof.
  unfold allTriples, facts. rewrite <- (scan_ok (storage_Graph g)).
  by destruct (Triples _).
Qed.

Lemma nonblank_lines_Join (triples : list Triple) :
  Forall reads_back triples →
  nonblank_lines
    (bytes_Join (map (λ t, bytes_of_string (Triple_String t)) triples) [x0a])
  = map (λ t, bytes_of_string (Triple_String t)) triples.
Proof.
  intros Hall. unfold nonblank_lines.
  destruct triples as [|t ts]; [done|].
  rewrite bytes_Split_Join.
  - apply filter_all. apply Forall_forall.
    intros line (t' & -> & Hin)%list_elem_of_fmap.
    by apply (proj1 (Forall_forall _ _) Hall t' Hin).
  - done.
  - apply Forall_forall. intros line (t' & -> & Hin)%list_elem_of_fmap.
    by apply (proj1 (Forall_forall _ _) Hall t' Hin).
Qed.

Lemma parse_lines_back (triples : list Triple) :
  Forall reads_back triples →
  map parse (map (λ t, bytes_of_string (Triple_String t)) triples)
  = map inl triples.
Proof.
  induction 1 as [|t ts (Ht & _) _ IH]; simpl; [done|]. f_equal; [|done].
  unfold parse, string_of_bytes, bytes_of_string.
  by rewrite String.string_of_list_byte_of_string.
Qed.
End MarshalFacts.

(** C5: [Marshal] writes the facts of the scan in ascending order of their
    whole text form, one per line, with a newline between two lines and none
    after the last; for an empty graph it writes nothing. *)
Theorem Marshal_sorted_lines {text : TripleText} `{store : StorageGraph Sto}
    (g : Graph Sto) (triples : list Triple) :
  allTriples g = (triples, None) →
  ∃ sorted out,
    Marshal g = (Some out, None) ∧
    sorted ≡ₚ triples ∧
    StronglySorted (le_by Triple_String) sorted ∧
    (sorted ≠ [] →
     out ++ [x0a]
     = concat (map (λ t, bytes_of_string (Triple_String t) ++ [x0a]) sorted)) ∧
    (triples = [] → out = []).
Proof.
  intros Hscan. eexists _, _. split; [by apply Marshal_scanned|].
  split; [apply (sort_Sort_perm Triple_String)|].
  split; [apply (sort_Sort_sorted Triple_String)|]. split.
  - intros Hne. rewrite bytes_Join_separates.
    + by rewrite map_map.
    + by destruct (sort_Sort _ _).
  - by intros ->.
Qed.

Lemma Marshal_sorted_lines_witness :
  ∃ sorted out,
    Marshal (text := tab_text) (mkGraph [c_d; a_c; a_b] 3) = (Some out, None) ∧
    sorted ≡ₚ [c_d; a_c; a_b] ∧
    StronglySorted (le_by (@Triple_String tab_text)) sorted ∧
    (sorted ≠ [] →
     out ++ [x0a]
     = concat (map (λ t, bytes_of_string (@Triple_String tab_text t) ++ [x0a])
                   sorted)) ∧
    ([c_d; a_c; a_b] = [] → out = []).
Proof.
  exact (Marshal_sorted_lines (text := tab_text) (mkGraph [c_d; a_c; a_b] 3)
           [c_d; a_c; a_b] eq_refl).
Defined.

Example Marshal_example :
  FlushString (text := tab_text) (mkGraph [c_d; a_c; a_b] 3)
  = (@Triple_String tab_text a_b +:+ String "010" EmptyString
     +:+ @Triple_String tab_text a_c +:+ String "010" EmptyString
     +:+ @Triple_String tab_text c_d)%string.
Proof. vm_compute. reflexivity. Qed.

Example Marshal_empty :
  Marshal (text := tab_text) (mkGraph ([] : memory) 0) = (Some [], None).
Proof. reflexivity. Qed.

(** C6: [Unmarshal] cuts the input at newlines, skips the lines made of
    white space only, and parses and adds the others one by one.  When every line parses
    and every [Add] succeeds it returns no error.  Otherwise it returns the
    error of the first line that fails to parse or to be added and reads no
    further; the graph keeps what the lines before it added. *)
Theorem Unmarshal_stops_at_first_error {text : TripleText}
    `{store : StorageGraph Sto} `{!AddLaws Sto}
    (g : Graph Sto) (data : bytes) :
  (∀ line, line ∈ nonblank_lines data
           ↔ line ∈ bytes_Split data x0a ∧ ¬ whitespace_only line) ∧
  (∀ ts g',
     map parse (nonblank_lines data) = map inl ts → add_all g ts = Some g' →
     Unmarshal g data = (g', None)) ∧
  (∀ pre bad post ts g' err,
     nonblank_lines data = pre ++ bad :: post →
     map parse pre = map inl ts → add_all g ts = Some g' →
     parse bad = inr err →
     Unmarshal g data = (g', Some err)) ∧
  (∀ pre bad post ts g' tri err,
     nonblank_lines data = pre ++ bad :: post →
     map parse pre = map inl ts → add_all g ts = Some g' →
     parse bad = inl tri → (Add g' [tri]).2 = Some err →
     Unmarshal g data = ((Add g' [tri]).1, Some err)) ∧
  (∀ ts g',
     add_all g ts = Some g' →
     ∀ t, t ∈ facts (storage_Graph g') ↔ t ∈ facts (storage_Graph g) ∨ t ∈ ts).
Proof.
  unfold Unmarshal. rewrite Unmarshal_lines_skip. fold (nonblank_lines data).
  pose proof (nonblank_lines_Forall data) as Hnb.
  split; [|split; [|split; [|split]]].
  - intros line. unfold nonblank_lines.
    rewrite list_elem_of_filter, blank_whitespace_only. tauto.
  - intros ts g' Hparse Hadd.
    rewrite <- (app_nil_r (nonblank_lines data)).
    by rewrite (Unmarshal_lines_app g g' _ [] ts).
  - intros pre bad post ts g' err Hlines Hparse Hadd Hbad.
    rewrite Hlines in Hnb |- *. apply Forall_app in Hnb as [Hpre Hrest].
    rewrite (Unmarshal_lines_app g g' pre _ ts) by done.
    inversion Hrest as [|? ? Hb _]; subst. cbn [Unmarshal_lines].
    fold (blank bad). destruct (blank bad); [by destruct Hb|].
    unfold parse in Hbad. by rewrite Hbad.
  - intros pre bad post ts g' tri err Hlines Hparse Hadd Hbad Herr.
    rewrite Hlines in Hnb |- *. apply Forall_app in Hnb as [Hpre Hrest].
    rewrite (Unmarshal_lines_app g g' pre _ ts) by done.
    inversion Hrest as [|? ? Hb _]; subst. cbn [Unmarshal_lines].
    fold (blank bad). destruct (blank bad); [by destruct Hb|].
    unfold parse in Hbad. rewrite Hbad.
    destruct (Add g' [tri]) as [g1 e]. simpl in Herr. by subst e.
  - intros ts g'. apply facts_add_all.
Qed.

Lemma Unmarshal_stops_at_first_error_witness :
  ∃ err,
    parse (text := tab_text) (bytes_of_string "not a triple") = inr err ∧
    Unmarshal (text := tab_text) (mkGraph ([] : memory) 0) text_with_error
    = (mkGraph [a_b] 1, Some err).
Proof.
  eexists. split; [reflexivity|].
  refine (proj1 (proj2 (proj2 (Unmarshal_stops_at_first_error
            (text := tab_text) (mkGraph ([] : memory) 0) text_with_error)))
          [bytes_of_string (@Triple_String tab_text a_b)]
          (bytes_of_string "not a triple")
          [bytes_of_string (@Triple_String tab_text a_c)]
          [a_b] (mkGraph [a_b] 1) _ _ _ _ _);
    by vm_compute.
Defined.

Lemma tripleSorter_perm {text : TripleText} (l : list Triple) :
  sort_Sort tripleSorter_Less l ≡ₚ l.
Proof. apply (sort_Sort_perm Triple_String). Qed.

Lemma NewNamedGraphFromTriples_fresh `{store : StorageGraph Sto}
    (w : gmap string (Graph Sto)) name triples :
  w !! name = None →
  NewNamedGraphFromTriples w name triples
  = Done (<[name := (Add (mkGraph store_NewGraph (len triples)) triples).1]> w,
          (Some name, (Add (mkGraph store_NewGraph (len triples)) triples).2)).
Proof.
  intros Hfree. unfold NewNamedGraphFromTriples.
  rewrite (NewNamedGraph_fresh _ _ Hfree).
  erewrite at_ptr_Some by apply lookup_insert_eq. simpl.
  erewrite at_ptr_Some by apply lookup_insert_eq. simpl.
  by rewrite !insert_insert_eq.
Qed.

(** C1, as amended: when the text form of each triple of [F] is one
    non-blank line, without a newline in it, that the parser reads back as
    the triple, a graph made from [F], written by [Marshal] and read by
    [Unmarshal] into a new empty graph, gives a graph with the facts of [F]
    and no others.  The store is one that holds a set of facts.  ([F] may
    even repeat a fact.) *)
Theorem Marshal_Unmarshal_round_trip {text : TripleText}
    `{store : StorageGraph Sto} `{!SetStore Sto}
    (w : gmap string (Graph Sto)) (name : string) (F : list Triple) :
  w !! name = None →
  Forall reads_back F →
  ∃ w' g data g',
    NewNamedGraphFromTriples w name F = Done (w', (Some name, None)) ∧
    w' !! name = Some g ∧
    Marshal g = (Some data, None) ∧
    Unmarshal (mkGraph store_NewGraph 0) data = (g', None) ∧
    ∀ t, t ∈ facts (storage_Graph g') ↔ t ∈ F.
Proof.
  intros Hfree Hback.
  set (g := (Add (mkGraph store_NewGraph (len F)) F).1).
  assert (Hg : ∀ t, t ∈ facts (storage_Graph g) ↔ t ∈ F).
  { intros t. unfold g. rewrite Add_store, facts_add. simpl.
    rewrite facts_new, elem_of_nil. tauto. }
  set (sorted := sort_Sort tripleSorter_Less (facts (storage_Graph g))).
  assert (Hsorted : ∀ t, t ∈ sorted ↔ t ∈ F).
  { intros t. unfold sorted.
    by rewrite tripleSorter_perm. }
  assert (Hback' : Forall reads_back sorted).
  { apply Forall_forall. intros t Ht%Hsorted.
    by apply (proj1 (Forall_forall _ _) Hback). }
  destruct (add_all_total (mkGraph store_NewGraph 0) sorted) as [g' Hadd].
  exists (<[name := g]> w), g,
    (bytes_Join (map (λ t, bytes_of_string (Triple_String t)) sorted) [x0a]),
    g'.
  split; [|split; [|split; [|split]]].
  - rewrite (NewNamedGraphFromTriples_fresh _ _ _ Hfree).
    by rewrite Add_error, add_ok.
  - apply lookup_insert_eq.
  - apply Marshal_scanned, allTriples_scanned.
  - eapply Unmarshal_all_lines; [|exact Hadd]. fold sorted.
    by rewrite nonblank_lines_Join, parse_lines_back.
  - intros t. rewrite (facts_add_all _ _ _ Hadd). simpl.
    rewrite facts_new, elem_of_nil, Hsorted. tauto.
Qed.

Lemma Marshal_Unmarshal_round_trip_witness :
  ∃ w' g data (g' : Graph memory),
    NewNamedGraphFromTriples no_graphs "g" [c_d; a_b; a_c]
      = Done (w', (Some "g"%string, None)) ∧
    w' !! "g" = Some g ∧
    Marshal (text := tab_text) g = (Some data, None) ∧
    Unmarshal (text := tab_text) (mkGraph store_NewGraph 0) data = (g', None) ∧
    ∀ t, t ∈ facts (storage_Graph g') ↔ t ∈ [c_d; a_b; a_c].
Proof.
  assert (Hfree : no_graphs !! "g" = None) by reflexivity.
  assert (Hback : Forall (reads_back (text := tab_text)) [c_d; a_b; a_c]).
  { repeat constructor; try (by vm_compute);
      apply (bool_decide_unpack _); by vm_compute. }
  exact (Marshal_Unmarshal_round_trip (text := tab_text) no_graphs "g"
           [c_d; a_b; a_c] Hfree Hback).
Defined.

(** C1 as stated fails: [Marshal] puts a newline between two facts and
    [Unmarshal] cuts at every newline, so a fact whose text form has a
    newline in it comes back as two lines.  Here [F] has no duplicate and
    the parser reads the text form of each of its facts back, yet
    [Unmarshal] stops with a parse error at the first line and the new graph
    stays empty. *)
Lemma Marshal_Unmarshal_breaks_on_newline :
  NoDup [a_two_lines; a_b] ∧
  Forall (λ t, @triple_Parse tab_text (@Triple_String tab_text t) = inl t)
         [a_two_lines; a_b] ∧
  ∃ w' (g g' : Graph memory) data err,
    NewNamedGraphFromTriples no_graphs "g" [a_two_lines; a_b]
      = Done (w', (Some "g"%string, None)) ∧
    w' !! "g" = Some g ∧
    Marshal (text := tab_text) g = (Some data, None) ∧
    Unmarshal (text := tab_text) (mkGraph store_NewGraph 0) data
      = (g', Some err) ∧
    facts (storage_Graph g') = [] ∧
    ¬ (∀ t, t ∈ facts (storage_Graph g') ↔ t ∈ [a_two_lines; a_b]).
Proof.
  split; [apply (bool_decide_unpack _); by vm_compute|].
  split; [repeat constructor|].
  exists (<["g"%string := mkGraph [a_two_lines; a_b] 4]> no_graphs),
    (mkGraph [a_two_lines; a_b] 4), (mkGraph [] 0).
  eexists _, _.
  split; [by rewrite NewNamedGraphFromTriples_fresh|].
  split; [apply lookup_insert_eq|].
  split; [reflexivity|]. split; [reflexivity|]. split; [reflexivity|].
  intros Hall. destruct (Hall a_b) as [_ Hin].
  specialize (Hin ltac:(right; left)). simpl in Hin.
  by apply elem_of_nil in Hin.
Qed.

Example NewGraphFromFile_example :
  NewGraphFromFile (text := tab_text) one_fact_file no_graphs "g" "graph.txt"
  = Done ({[ "g"%string := mkGraph [a_b] 1 ]}, (Some "g"%string, None)).
Proof. by vm_compute. Qed.

Example round_trip_example :
  ∃ data,
    Marshal (text := tab_text) (mkGraph [c_d; a_b; a_c] 6) = (Some data, None) ∧
    Unmarshal (text := tab_text) (mkGraph ([] : memory) 0) data
    = (mkGraph [a_b; a_c; c_d] 3, None).
Proof. eexists. split; [reflexivity|]. by vm_compute. Qed.

(** ** Depth-first traversal *)

Example VisitDepthFirst_example :
  VisitDepthFirst 3 example_graph node_a collect [] []
  = Some ([(node_a, 0); (node_b, 1); (node_c, 1); (node_d, 2)], None).
Proof. reflexivity. Qed.

Section TraversalFacts.
Context `{store : StorageGraph Sto} {St : Type}.
Implicit Types (g : Graph Sto) (each : Node → Z → St → St).

Lemma nodeSorter_perm (l : list Node) : sort_Sort nodeSorter_Less l ≡ₚ l.
Proof. apply (sort_Sort_perm ID_String). Qed.

Lemma nodeSorter_sorted (l : list Node) :
  StronglySorted (le_by ID_String) (sort_Sort nodeSorter_Less l).
Proof. apply (sort_Sort_sorted ID_String). Qed.

(** One step of [VisitDepthFirst] at a node whose children can be listed. *)
Lemma VisitDepthFirst_step fuel g root each distances st childs :
  childs_of g root = Some childs →
  VisitDepthFirst (S fuel) g root each distances st
  = range_childs
      (λ child st,
         VisitDepthFirst fuel g child each
           [int_add (start_depth distances) 1] st)
      (sort_Sort nodeSorter_Less childs)
      (each root (start_depth distances) st).
Proof.
  unfold childs_of. intros Hc. cbn [VisitDepthFirst].
  destruct (triplesForSubjectAndPredicate g root parentOf) as [rels [e|]];
    [done|].
  destruct (collect_childs rels []) as [cs|e]; [|done]. by inversion Hc.
Qed.

(** A failure at the node itself: [each] has run and the error is returned. *)
Lemma VisitDepthFirst_fails_here fuel g root each distances st :
  childs_of g root = None →
  ∃ err, VisitDepthFirst (S fuel) g root each distances st
         = Some (each root (start_depth distances) st, Some err).
Proof.
  unfold childs_of. intros Hc. cbn [VisitDepthFirst].
  destruct (triplesForSubjectAndPredicate g root parentOf) as [rels [e|]];
    [by eexists|].
  destruct (collect_childs rels []) as [cs|e]; [done|by eexists].
Qed.

(** The loop over the children never returns an error. *)
Lemma range_childs_no_error
    (visit : Node → St → option (St * option error)) childs st r :
  range_childs visit childs st = Some r → r.2 = None.
Proof.
  revert st. induction childs as [|c cs IH]; intros st; simpl.
  - by intros [= <-].
  - destruct (visit c st) as [[st1 e]|]; [apply IH|done].
Qed.

Lemma range_childs_mono
    (visit visit' : Node → St → option (St * option error)) childs st r :
  (∀ c s r, visit c s = Some r → visit' c s = Some r) →
  range_childs visit childs st = Some r →
  range_childs visit' childs st = Some r.
Proof.
  intros Hv. revert st. induction childs as [|c cs IH]; intros st; simpl.
  - done.
  - destruct (visit c st) as [[st1 e]|] eqn:Hc; [|done].
    rewrite (Hv _ _ _ Hc). apply IH.
Qed.

(** More fuel does not change a result. *)
Lemma VisitDepthFirst_more_fuel fuel fuel' g root each distances st r :
  (fuel ≤ fuel')%nat →
  VisitDepthFirst fuel g root each distances st = Some r →
  VisitDepthFirst fuel' g root each distances st = Some r.
Proof.
  revert fuel' root distances st r.
  induction fuel as [|fuel IH]; intros fuel' root distances st r Hle; [done|].
  destruct fuel' as [|fuel']; [lia|]. cbn [VisitDepthFirst].
  destruct (triplesForSubjectAndPredicate g root parentOf) as [rels [e|]];
    [done|].
  destruct (collect_childs rels []) as [cs|e]; [|done].
  apply range_childs_mono. intros c s r'. apply IH. lia.
Qed.

Lemma VisitDepthFirst_deterministic fuel fuel' g root each distances st r r' :
  VisitDepthFirst fuel g root each distances st = Some r →
  VisitDepthFirst fuel' g root each distances st = Some r' →
  r = r'.
Proof.
  intros Hr Hr'.
  apply (VisitDepthFirst_more_fuel _ (fuel `max` fuel')) in Hr; [|lia].
  apply (VisitDepthFirst_more_fuel _ (fuel `max` fuel')) in Hr'; [|lia].
  congruence.
Qed.

(** In a hierarchy the traversal ends without error and visits as
    specified. *)
Lemma VisitDepthFirst_visits g each levels :
  ∀ root distances st,
    hierarchy g levels root →
    int_min ≤ start_depth distances →
    start_depth distances + Z.of_nat levels ≤ int_max →
    ∃ st', VisitDepthFirst levels g root each distances st = Some (st', None) ∧
           visits g each root (start_depth distances) st st'.
Proof.
  induction levels as [|levels IH]; intros root distances st Hh Hmin Hmax.
  { inversion Hh. }
  inversion Hh as [? ? childs Hc Hchilds]; subst.
  rewrite (VisitDepthFirst_step _ _ _ _ _ _ _ Hc).
  set (depth := start_depth distances) in *.
  rewrite int_add_small by (unfold int_min, int_max in *; lia).
  assert (Hsorted : ∀ c, c ∈ sort_Sort nodeSorter_Less childs →
                         hierarchy g levels c).
  { intros c Hin. apply Hchilds. by rewrite nodeSorter_perm in Hin. }
  assert (Hloop : ∀ cs s, (∀ c, c ∈ cs → hierarchy g levels c) →
    ∃ st', range_childs
             (λ child st, VisitDepthFirst levels g child each [depth + 1] st)
             cs s = Some (st', None) ∧
           visits_each g each cs (depth + 1) s st').
  { induction cs as [|c cs IHcs]; intros s Hcs; simpl.
    - eexists. split; [done|constructor].
    - destruct (IH c [depth + 1] s) as (s1 & -> & Hv1);
        [apply Hcs; left|simpl; lia|simpl; lia|].
      destruct (IHcs s1) as (s2 & -> & Hv2);
        [intros c' Hc'; apply Hcs; by right|].
      eexists. split; [done|]. by econstructor. }
  destruct (Hloop _ (each root depth st) Hsorted) as (st' & -> & Hv).
  exists st'. split; [done|].
  econstructor; [exact Hc|apply nodeSorter_perm|apply nodeSorter_sorted|done].
Qed.

Lemma range_childs_ext
    (visit visit' : Node → St → option (St * option error)) childs st :
  (∀ c s, visit c s = visit' c s) →
  range_childs visit childs st = range_childs visit' childs st.
Proof.
  intros Hv. revert st. induction childs as [|c cs IH]; intros st; simpl.
  - done.
  - rewrite Hv. destruct (visit' c st) as [[st1 e]|]; [apply IH|done].
Qed.

(** The order in which the store returns the facts of a node does not
    matter, as long as no two children of a node have the same identifier
    (nodes of different types may): the sort settles the order. *)
Lemma VisitDepthFirst_scan_order g1 g2 each :
  (∀ n, ∃ c1 c2, childs_of g1 n = Some c1 ∧ childs_of g2 n = Some c2 ∧
                 c1 ≡ₚ c2 ∧ NoDup (map ID_String c1)) →
  ∀ fuel root distances st,
    VisitDepthFirst fuel g1 root each distances st
    = VisitDepthFirst fuel g2 root each distances st.
Proof.
  intros Hsame. induction fuel as [|fuel IH]; intros root distances st; [done|].
  destruct (Hsame root) as (c1 & c2 & Hc1 & Hc2 & Hperm & Hnd).
  rewrite (VisitDepthFirst_step _ _ _ _ _ _ _ Hc1).
  rewrite (VisitDepthFirst_step _ _ _ _ _ _ _ Hc2).
  assert (sort_Sort nodeSorter_Less c1 = sort_Sort nodeSorter_Less c2) as ->
    by by apply (sort_Sort_perm_eq ID_String).
  apply range_childs_ext. intros c s. apply IH.
Qed.
End TraversalFacts.

Lemma VisitDepthFirst_same_children `{store : StorageGraph Sto} {St : Type}
    (g g' : Graph Sto) (each : Node → Z → St → St) :
  same_children g g' →
  ∀ fuel root distances st,
    VisitDepthFirst fuel g root each distances st
    = VisitDepthFirst fuel g' root each distances st.
Proof.
  intros Hsame. induction fuel as [|fuel IH]; intros root distances st; [done|].
  destruct (Hsame root) as (c & c' & Hc & Hc' & Hperm & Hnd).
  rewrite (VisitDepthFirst_step _ _ _ _ _ _ _ Hc).
  rewrite (VisitDepthFirst_step _ _ _ _ _ _ _ Hc').
  assert (sort_Sort nodeSorter_Less c = sort_Sort nodeSorter_Less c') as ->
    by by apply (sort_Sort_perm_eq ID_String).
  apply range_childs_ext. intros child s. apply IH.
Qed.

(** C2, as amended: in a graph whose [parent_of] facts form a tree below
    [root] (a hierarchy of finitely many levels), [VisitDepthFirst] returns
    without error after calling [each root dist] first and then visiting the
    children of [root], with their descendants, in ascending order of their
    identifier strings, at [dist + 1].  When no two children of a node have
    the same identifier string, any call on the same facts, in whatever
    order the store returns them, gives the same result.  For the facts a-b,
    a-c, c-d the calls of [each], from [a], are (a,0), (b,1), (c,1),
    (d,2). *)
Theorem VisitDepthFirst_preorder_distinct_ids :
  (∀ `(store : StorageGraph Sto) (St : Type) (g : Graph Sto)
     (each : Node → Z → St → St) (levels : nat) (root : Node)
     (distances : list Z) (st : St),
     hierarchy g levels root →
     int_min ≤ start_depth distances →
     start_depth distances + Z.of_nat levels ≤ int_max →
     ∃ st',
       VisitDepthFirst levels g root each distances st = Some (st', None) ∧
       visits g each root (start_depth distances) st st' ∧
       ∀ g', same_children g g' →
         ∀ fuel r,
           VisitDepthFirst fuel g' root each distances st = Some r →
           r = (st', None)) ∧
  VisitDepthFirst 3 example_graph node_a collect [] []
  = Some ([(node_a, 0); (node_b, 1); (node_c, 1); (node_d, 2)], None).
Proof.
  split; [|reflexivity].
  intros Sto store St g each levels root distances st Hh Hmin Hmax.
  destruct (VisitDepthFirst_visits g each levels root distances st Hh Hmin Hmax)
    as (st' & Hrun & Hv).
  exists st'. split; [done|]. split; [done|].
  intros g' Hsame fuel r Hr.
  rewrite <- (VisitDepthFirst_same_children g g' each Hsame) in Hr.
  by eapply VisitDepthFirst_deterministic.
Qed.

Lemma example_graph_hierarchy : hierarchy example_graph 3 node_a.
Proof.
  apply (hierarchy_node _ _ _ [node_c; node_b]); [reflexivity|].
  intros child [->|[->|[]%elem_of_nil]%elem_of_cons]%elem_of_cons.
  - apply (hierarchy_node _ _ _ [node_d]); [reflexivity|].
    intros child [->|[]%elem_of_nil]%elem_of_cons.
    apply (hierarchy_node _ _ _ []); [reflexivity|].
    by intros ? ?%elem_of_nil.
  - apply (hierarchy_node _ _ _ []); [reflexivity|].
    by intros ? ?%elem_of_nil.
Defined.

Lemma example_graphs_same_children :
  ∀ n, ∃ c1 c2,
    childs_of example_graph n = Some c1 ∧
    childs_of example_graph' n = Some c2 ∧
    c1 ≡ₚ c2 ∧ NoDup (map ID_String c1).
Proof.
  intros n.
  destruct (decide (n = node_a)) as [->|Ha].
  { exists [node_c; node_b], [node_b; node_c].
    split; [reflexivity|]. split; [reflexivity|].
    split; [apply Permutation_swap|].
    apply (bool_decide_unpack _). by vm_compute. }
  destruct (decide (n = node_c)) as [->|Hc].
  { exists [node_d], [node_d]. split; [reflexivity|]. split; [reflexivity|].
    split; [done|]. apply (bool_decide_unpack _). by vm_compute. }
  exists [], []. unfold childs_of, triplesForSubjectAndPredicate. simpl.
  rewrite !filter_cons_False, filter_nil
    by (intros [Hs _]; simpl in Hs; congruence).
  split; [done|]. split; [done|]. split; [done|constructor].
Defined.

Lemma VisitDepthFirst_preorder_distinct_ids_witness :
  ∃ seen,
    VisitDepthFirst 3 example_graph node_a collect [0] [] = Some (seen, None) ∧
    visits example_graph collect node_a 0 [] seen ∧
    ∀ fuel r,
      VisitDepthFirst fuel example_graph' node_a collect [0] [] = Some r →
      r = (seen, None).
Proof.
  assert (Hmin : int_min ≤ start_depth [0]) by (by vm_compute).
  assert (Hmax : start_depth [0] + Z.of_nat 3 ≤ int_max) by (by vm_compute).
  destruct (proj1 VisitDepthFirst_preorder_distinct_ids _ _ _ example_graph
              collect 3%nat node_a [0] [] example_graph_hierarchy Hmin Hmax)
    as (seen & Hrun & Hvisits & Hsame).
  exists seen. split; [exact Hrun|]. split; [exact Hvisits|].
  exact (Hsame example_graph' example_graphs_same_children).
Defined.

(** C2 as stated fails: the sort compares the identifiers of the children
    and not their types, so two children with one identifier stay in the
    order in which the store returned their facts.  The two graphs hold the
    same two facts, which form a tree below [r]; the visits differ. *)
Lemma VisitDepthFirst_tied_siblings_follow_scan :
  hierarchy tied_graph 2 node_r ∧ hierarchy tied_graph' 2 node_r ∧
  facts (storage_Graph tied_graph) ≡ₚ facts (storage_Graph tied_graph') ∧
  VisitDepthFirst 2 tied_graph node_r collect [] []
  = Some ([(node_r, 0); (node_ux, 1); (node_gx, 1)], None) ∧
  VisitDepthFirst 2 tied_graph' node_r collect [] []
  = Some ([(node_r, 0); (node_gx, 1); (node_ux, 1)], None) ∧
  VisitDepthFirst 2 tied_graph node_r collect [] []
  ≠ VisitDepthFirst 2 tied_graph' node_r collect [] [].
Proof.
  assert (Hleaf : ∀ (g : Graph memory) n,
            childs_of g n = Some [] → hierarchy g 1 n).
  { intros g n Hn. apply (hierarchy_node _ _ _ []); [done|].
    by intros ? ?%elem_of_nil. }
  split; [|split; [|split; [|split; [|split]]]].
  - apply (hierarchy_node _ _ _ [node_ux; node_gx]); [reflexivity|].
    intros child [->|[->|[]%elem_of_nil]%elem_of_cons]%elem_of_cons;
      by apply Hleaf.
  - apply (hierarchy_node _ _ _ [node_gx; node_ux]); [reflexivity|].
    intros child [->|[->|[]%elem_of_nil]%elem_of_cons]%elem_of_cons;
      by apply Hleaf.
  - apply Permutation_swap.
  - reflexivity.
  - reflexivity.
  - by vm_compute.
Qed.

(** C7 fails on the code: [VisitDepthFirst] returns the error of a step at
    the root only.  The error of a recursive call is dropped: here the
    object of [b]'s fact is a literal, the visit of [b] fails, and the visit
    from [a] goes on to [c] and [d] and returns no error. *)
Theorem VisitDepthFirst_drops_child_error :
  (∃ err, VisitDepthFirst 4 graph_with_literal node_b collect [1] []
          = Some ([(node_b, 1)], Some err)) ∧
  VisitDepthFirst 4 graph_with_literal node_a collect [] []
  = Some ([(node_a, 0); (node_b, 1); (node_c, 1); (node_d, 2)], None).
Proof. split; [eexists|]; reflexivity. Qed.

(** The errors [VisitDepthFirst] does return: a failure at the root, after
    [each] has been called on the root and before any child is visited; no
    other failure is ever returned. *)
Lemma VisitDepthFirst_error_is_at_root `{store : StorageGraph Sto} {St : Type}
    (g : Graph Sto) (each : Node → Z → St → St) fuel root distances st st' err :
  VisitDepthFirst fuel g root each distances st = Some (st', Some err) →
  childs_of g root = None ∧ st' = each root (start_depth distances) st.
Proof.
  destruct fuel as [|fuel]; [done|].
  destruct (childs_of g root) as [childs|] eqn:Hc.
  - rewrite (VisitDepthFirst_step _ _ _ _ _ _ _ Hc).
    by intros ?%range_childs_no_error.
  - destruct (VisitDepthFirst_fails_here fuel g root each distances st Hc)
      as [e ->]. by intros [= <- _].
Qed.

(** * Further properties of the operations *)

(** ** Constructors *)

Section ConstructorFacts.
Context {text : TripleText} `{store : StorageGraph Sto}.
Implicit Types w : gmap string (Graph Sto).

Lemma NewNamedGraphFromFile_read files w name filepath data :
  files !! filepath = Some data → w !! name = None →
  NewNamedGraphFromFile files w name filepath
  = Done (<[name := (Unmarshal (mkGraph store_NewGraph 0) data).1]> w,
          match (Unmarshal (mkGraph store_NewGraph 0) data).2 with
          | Some err => (None, Some err)
          | None => (Some name, None)
          end).
Proof.
  intros Hfile Hfree. unfold NewNamedGraphFromFile. rewrite Hfile.
  rewrite (NewNamedGraph_fresh _ _ Hfree).
  erewrite at_ptr_Some by apply lookup_insert_eq. simpl.
  rewrite insert_insert_eq.
  by destruct (Unmarshal _ data) as [g' [err|]].
Qed.
End ConstructorFacts.

(** A name is used once.  While a graph of that name is in the store,
    [NewNamedGraphFromTriples] and [NewNamedGraphFromFile] return nil and
    the error of the store, and leave the heap as it was: the graph that
    has the name gets none of the triples and none of the lines, and its
    counter does not move. *)
Theorem named_constructors_refuse_used_name {text : TripleText}
    `{store : StorageGraph Sto}
    (files : gmap string bytes) (w : gmap string (Graph Sto))
    (name filepath : string) (o : Graph Sto) (triples : list Triple)
    (data : bytes) :
  w !! name = Some o → files !! filepath = Some data →
  (∃ err, NewNamedGraphFromTriples w name triples
          = Done (w, (None, Some err))) ∧
  (∃ err, NewNamedGraphFromFile files w name filepath
          = Done (w, (None, Some err))).
Proof.
  intros Hname Hfile.
  destruct (NewNamedGraph_taken w name o Hname) as [err Herr]. split.
  - exists err. unfold NewNamedGraphFromTriples. by rewrite Herr.
  - exists err. unfold NewNamedGraphFromFile. by rewrite Hfile, Herr.
Qed.

Lemma named_constructors_refuse_used_name_witness :
  (∃ err, NewNamedGraphFromTriples world_ab "a" [c_d]
          = Done (world_ab, (None, Some err))) ∧
  (∃ err, NewNamedGraphFromFile (text := tab_text) one_fact_file world_ab "a"
            "graph.txt"
          = Done (world_ab, (None, Some err))).
Proof.
  assert (Ha : world_ab !! "a" = Some (mkGraph [a_b; a_c] 4)) by reflexivity.
  assert (Hf : one_fact_file !! "graph.txt"
               = Some (bytes_of_string
                         (newline +:+ @Triple_String tab_text a_b)))
    by reflexivity.
  exact (named_constructors_refuse_used_name (text := tab_text) one_fact_file
           world_ab "a" "graph.txt" _ [c_d] _ Ha Hf).
Defined.

(** [NewNamedGraph] with an unused name registers a graph with no facts and
    a counter of 0, changes no other graph, and uses the name up: a second
    call with it fails. *)
Theorem NewNamedGraph_registers_once `{store : StorageGraph Sto}
    `{!AddLaws Sto} (w : gmap string (Graph Sto)) (name : string) :
  w !! name = None →
  ∃ w' g,
    NewNamedGraph w name = (w', inl name) ∧
    w' !! name = Some g ∧
    facts (storage_Graph g) = [] ∧ TriplesCount g = 0 ∧
    (∀ p, p ≠ name → w' !! p = w !! p) ∧
    ∃ err, NewNamedGraph w' name = (w', inr err).
Proof.
  intros Hfree. eexists _, _.
  split; [by apply NewNamedGraph_fresh|].
  split; [apply lookup_insert_eq|]. split; [apply facts_new|].
  split; [done|]. split.
  - intros p Hp. by rewrite lookup_insert_ne.
  - eapply NewNamedGraph_taken. apply lookup_insert_eq.
Qed.

Lemma NewNamedGraph_registers_once_witness :
  ∃ w' g,
    NewNamedGraph world_ab "c" = (w', inl "c"%string) ∧
    w' !! "c" = Some g ∧
    facts (storage_Graph g) = [] ∧ TriplesCount g = 0 ∧
    (∀ p, p ≠ "c"%string → w' !! p = world_ab !! p) ∧
    ∃ err, NewNamedGraph w' "c" = (w', inr err).
Proof.
  assert (Hfree : world_ab !! "c" = None) by reflexivity.
  exact (NewNamedGraph_registers_once world_ab "c" Hfree).
Defined.

(** [NewNamedGraphFromTriples] with an unused name, over a store that keeps
    what is added: the new graph holds the given triples and no others, and
    no other graph changes. *)
Theorem NewNamedGraphFromTriples_holds `{store : StorageGraph Sto}
    `{!AddLaws Sto} (w : gmap string (Graph Sto)) (name : string)
    (triples : list Triple) :
  w !! name = None →
  ∃ w' err g,
    NewNamedGraphFromTriples w name triples = Done (w', (Some name, err)) ∧
    w' !! name = Some g ∧
    (∀ t, t ∈ facts (storage_Graph g) ↔ t ∈ triples) ∧
    (∀ p, p ≠ name → w' !! p = w !! p).
Proof.
  intros Hfree. eexists _, _, _.
  split; [by apply NewNamedGraphFromTriples_fresh|].
  split; [apply lookup_insert_eq|]. split.
  - intros t. rewrite Add_store, facts_add. simpl.
    rewrite facts_new, elem_of_nil. tauto.
  - intros p Hp. by rewrite lookup_insert_ne.
Qed.

Lemma NewNamedGraphFromTriples_holds_witness :
  ∃ w' err g,
    NewNamedGraphFromTriples world_ab "c" [c_d; a_b; c_d]
      = Done (w', (Some "c"%string, err)) ∧
    w' !! "c" = Some g ∧
    (∀ t, t ∈ facts (storage_Graph g) ↔ t ∈ [c_d; a_b; c_d]) ∧
    (∀ p, p ≠ "c"%string → w' !! p = world_ab !! p).
Proof.
  assert (Hfree : world_ab !! "c" = None) by reflexivity.
  exact (NewNamedGraphFromTriples_holds world_ab "c" [c_d; a_b; c_d] Hfree).
Defined.

(** How [NewNamedGraphFromFile] fails.  A file that cannot be read: the
    error is returned and nothing is created, whether the name is free or
    not.  A file that [Unmarshal] rejects: no graph is returned, but the
    graph made for it stays in the store under the name, with what the lines
    before the error added; the name cannot be used again, so loading a
    corrected file under the same name fails too. *)
Theorem NewNamedGraphFromFile_failures {text : TripleText}
    `{store : StorageGraph Sto}
    (files : gmap string bytes) (w : gmap string (Graph Sto))
    (name filepath : string) :
  (files !! filepath = None →
   ∃ err, NewNamedGraphFromFile files w name filepath
          = Done (w, (None, Some err))) ∧
  (∀ data g' err,
     files !! filepath = Some data → w !! name = None →
     Unmarshal (mkGraph store_NewGraph 0) data = (g', Some err) →
     NewNamedGraphFromFile files w name filepath
     = Done (<[name := g']> w, (None, Some err)) ∧
     ∀ files' filepath',
       ∃ err', NewNamedGraphFromFile files' (<[name := g']> w) name filepath'
               = Done (<[name := g']> w, (None, Some err'))).
Proof.
  split.
  - intros Hfile. unfold NewNamedGraphFromFile. rewrite Hfile. by eexists.
  - intros data g' err Hfile Hfree Hload. split.
    + rewrite (NewNamedGraphFromFile_read _ _ _ _ _ Hfile Hfree).
      by rewrite Hload.
    + intros files' filepath'. unfold NewNamedGraphFromFile.
      destruct (files' !! filepath') as [data'|]; [|by eexists].
      destruct (NewNamedGraph_taken (<[name := g']> w) name g') as [e ->];
        [apply lookup_insert_eq|]. by eexists.
Qed.

Lemma NewNamedGraphFromFile_failures_witness :
  ∃ err,
    NewNamedGraphFromFile (text := tab_text) bad_file no_graphs "g" "bad.txt"
    = Done (<["g"%string := mkGraph [a_b] 1]> no_graphs, (None, Some err)) ∧
    ∀ files' filepath',
      ∃ err', NewNamedGraphFromFile (text := tab_text) files'
                (<["g"%string := mkGraph [a_b] 1]> no_graphs) "g" filepath'
              = Done (<["g"%string := mkGraph [a_b] 1]> no_graphs,
                      (None, Some err')).
Proof.
  assert (Hfile : bad_file !! "bad.txt" = Some text_with_error)
    by reflexivity.
  assert (Hfree : no_graphs !! "g" = None) by reflexivity.
  eexists.
  refine (proj2 (NewNamedGraphFromFile_failures (text := tab_text) bad_file
            no_graphs "g" "bad.txt") text_with_error (mkGraph [a_b] 1) _
            Hfile Hfree _).
  by vm_compute.
Defined.

(** ** Reading and writing the text form *)

Section TextFacts.
Context {text : TripleText} `{store : StorageGraph Sto}.

Lemma bytes_Split_nonempty (s : bytes) (sep : byte) : bytes_Split s sep ≠ [].
Proof.
  destruct s as [|b s]; simpl; [done|].
  destruct (Byte.eqb b sep); [done|]. by destruct (bytes_Split s sep).
Qed.

Lemma bytes_Split_at_sep (l r : bytes) (sep : byte) :
  bytes_Split (l ++ sep :: r) sep = bytes_Split l sep ++ bytes_Split r sep.
Proof.
  induction l as [|b l IH]; simpl.
  - assert (Byte.eqb sep sep = true) as -> by by apply Byte.byte_dec_lb.
    done.
  - destruct (Byte.eqb b sep); [by rewrite IH|]. rewrite IH.
    pose proof (bytes_Split_nonempty l sep).
    by destruct (bytes_Split l sep).
Qed.

Lemma Unmarshal_lines_then (g : Graph Sto) (lines lines' : list bytes) :
  Unmarshal_lines g (lines ++ lines')
  = match Unmarshal_lines g lines with
    | (g1, None) => Unmarshal_lines g1 lines'
    | (g1, Some err) => (g1, Some err)
    end.
Proof.
  revert g. induction lines as [|line rest IH]; intros g; [done|].
  cbn [app Unmarshal_lines].
  destruct (bytes_Equal _ _); [apply IH|].
  destruct (triple_Parse _) as [t|err]; [|done].
  destruct (Add g [t]) as [g1 [err|]]; [done|apply IH].
Qed.

Lemma Unmarshal_lines_blank (g : Graph Sto) (lines : list bytes) :
  Forall whitespace_only lines → Unmarshal_lines g lines = (g, None).
Proof.
  induction 1 as [|line rest Hline _ IH]; [done|].
  cbn [Unmarshal_lines]. fold (blank line).
  apply blank_whitespace_only in Hline. by destruct (blank line).
Qed.

Lemma Unmarshal_lines_grows `{!AddLaws Sto} (lines : list bytes) :
  ∀ g : Graph Sto,
    (∀ t, t ∈ facts (storage_Graph g) →
          t ∈ facts (storage_Graph (Unmarshal_lines g lines).1)) ∧
    (∀ t, t ∈ facts (storage_Graph (Unmarshal_lines g lines).1) →
          t ∈ facts (storage_Graph g) ∨
          ∃ line, line ∈ lines ∧ ¬ whitespace_only line ∧ parse line = inl t).
Proof.
  induction lines as [|line rest IH]; intros g.
  { simpl. split; [done|]. intros t Ht. by left. }
  cbn [Unmarshal_lines]. fold (blank line). fold (parse line).
  destruct (blank line) eqn:Hblank.
  { destruct (IH g) as [Hkeep Hfrom]. split; [done|].
    intros t [?|(l & ? & ?)]%Hfrom; [by left|right].
    exists l. split; [by right|done]. }
  assert (¬ whitespace_only line) as Hline.
  { rewrite <- blank_whitespace_only. rewrite Hblank. by intros []. }
  destruct (parse line) as [tri|err] eqn:Hparse.
  2:{ simpl. split; [done|]. intros t Ht. by left. }
  pose proof (Add_store g [tri]) as Hstore.
  destruct (Add g [tri]) as [g1 e]. simpl in Hstore.
  assert (Hg1 : ∀ t, t ∈ facts (storage_Graph g1)
                     ↔ t ∈ facts (storage_Graph g) ∨ t = tri).
  { intros t. rewrite Hstore, facts_add, elem_of_cons, elem_of_nil. tauto. }
  assert (Hhere : ∀ t, t ∈ facts (storage_Graph g1) →
            t ∈ facts (storage_Graph g) ∨
            ∃ l, l ∈ line :: rest ∧ ¬ whitespace_only l ∧ parse l = inl t).
  { intros t [?| ->]%Hg1; [by left|right].
    exists line. split; [by left|done]. }
  destruct e as [err|]; simpl.
  { split; [|done]. intros t Ht. apply Hg1. by left. }
  destruct (IH g1) as [Hkeep Hfrom]. split.
  - intros t Ht. apply Hkeep, Hg1. by left.
  - intros t [?|(l & ? & ?)]%Hfrom; [by apply Hhere|right].
    exists l. split; [by right|done].
Qed.

Lemma Unmarshal_lines_count (lines : list bytes) :
  ∀ g g' : Graph Sto,
    Unmarshal_lines g lines = (g', None) →
    int_min ≤ triplesCount g →
    triplesCount g + len (filter (λ line, ¬ blank line) lines) ≤ int_max →
    triplesCount g'
    = triplesCount g + len (filter (λ line, ¬ blank line) lines).
Proof.
  unfold len.
  induction lines as [|line rest IH]; intros g g' Hrun Hmin Hmax.
  { simpl in *. inversion Hrun. subst. lia. }
  cbn [Unmarshal_lines] in Hrun. fold (blank line) in Hrun.
  rewrite filter_cons in Hmax |- *.
  destruct (blank line) eqn:Hblank.
  { rewrite decide_False in Hmax |- * by (by intros []). by apply IH. }
  rewrite decide_True in Hmax |- * by (by intros ?).
  cbn [length] in Hmax |- *.
  destruct (triple_Parse _) as [tri|err]; [|done].
  pose proof (Add_count g [tri]) as Hcount.
  destruct (Add g [tri]) as [g1 [err|]]; [done|]. simpl in Hcount.
  rewrite int_add_small in Hcount
    by (unfold len, int_min, int_max in *; simpl; lia).
  unfold len in Hcount. simpl in Hcount.
  rewrite (IH _ _ Hrun); lia.
Qed.
End TextFacts.

(** Reading two texts joined by a newline is reading the first and then,
    if that went well, the second into what the first left; an error in the
    first is the result, and the second is not read. *)
Theorem Unmarshal_joined {text : TripleText} `{store : StorageGraph Sto}
    (g : Graph Sto) (data data' : bytes) :
  Unmarshal g (data ++ x0a :: data')
  = match Unmarshal g data with
    | (g1, None) => Unmarshal g1 data'
    | (g1, Some err) => (g1, Some err)
    end.
Proof.
  unfold Unmarshal. rewrite bytes_Split_at_sep. apply Unmarshal_lines_then.
Qed.

(** A text with nothing but white space on its lines, the empty text
    included, reads as nothing: no error, and the graph and its counter are
    as before. *)
Theorem Unmarshal_blank_text {text : TripleText} `{store : StorageGraph Sto}
    (g : Graph Sto) (data : bytes) :
  Forall whitespace_only (bytes_Split data x0a) →
  Unmarshal g data = (g, None).
Proof. apply Unmarshal_lines_blank. Qed.

Lemma Unmarshal_blank_text_witness :
  Unmarshal (text := tab_text) example_graph
    [x20; x0a; x09; x0d; x0a; xe3; x80; x80; x0a]
  = (example_graph, None).
Proof.
  apply (Unmarshal_blank_text (text := tab_text)).
  repeat constructor;
    repeat (eapply whitespace_rune; [reflexivity|]); apply whitespace_none.
Defined.

(** [Unmarshal] only adds.  Whatever it returns, the facts the graph had are
    still there, and every other fact of the graph was parsed from a
    non-blank line of the input. *)
Theorem Unmarshal_only_adds {text : TripleText} `{store : StorageGraph Sto}
    `{!AddLaws Sto} (g : Graph Sto) (data : bytes) :
  (∀ t, t ∈ facts (storage_Graph g) →
        t ∈ facts (storage_Graph (Unmarshal g data).1)) ∧
  (∀ t, t ∈ facts (storage_Graph (Unmarshal g data).1) →
        t ∈ facts (storage_Graph g) ∨
        ∃ line, line ∈ bytes_Split data x0a ∧ ¬ whitespace_only line ∧
                parse line = inl t).
Proof. apply Unmarshal_lines_grows. Qed.

Lemma Unmarshal_only_adds_witness :
  (∀ t, t ∈ facts (storage_Graph example_graph) →
        t ∈ facts (storage_Graph
                     (Unmarshal (text := tab_text) example_graph
                        text_with_error).1)) ∧
  (∀ t, t ∈ facts (storage_Graph
                     (Unmarshal (text := tab_text) example_graph
                        text_with_error).1) →
        t ∈ facts (storage_Graph example_graph) ∨
        ∃ line, line ∈ bytes_Split text_with_error x0a ∧
                ¬ whitespace_only line ∧
                parse (text := tab_text) line = inl t).
Proof.
  exact (Unmarshal_only_adds (text := tab_text) example_graph text_with_error).
Defined.

(** When [Unmarshal] returns no error, the counter has grown by the number
    of non-blank lines of the input, repeated facts included. *)
Theorem Unmarshal_counts_lines {text : TripleText} `{store : StorageGraph Sto}
    (g g' : Graph Sto) (data : bytes) :
  Unmarshal g data = (g', None) →
  int_min ≤ TriplesCount g →
  TriplesCount g + len (nonblank_lines data) ≤ int_max →
  TriplesCount g' = TriplesCount g + len (nonblank_lines data).
Proof. apply Unmarshal_lines_count. Qed.

Lemma Unmarshal_counts_lines_witness :
  TriplesCount (mkGraph [a_b] 2 : Graph memory)
  = TriplesCount (mkGraph [] 0 : Graph memory)
    + len (nonblank_lines text_twice).
Proof.
  assert (Hrun : Unmarshal (text := tab_text) (mkGraph ([] : memory) 0)
                   text_twice = (mkGraph [a_b] 2, None)) by (by vm_compute).
  assert (Hmin : int_min ≤ TriplesCount (mkGraph ([] : memory) 0))
    by (by vm_compute).
  assert (Hmax : TriplesCount (mkGraph ([] : memory) 0)
                 + len (nonblank_lines text_twice) ≤ int_max)
    by (by vm_compute).
  exact (Unmarshal_counts_lines (text := tab_text) _ _ text_twice
           Hrun Hmin Hmax).
Defined.

(** The text [Marshal] writes does not depend on the order in which the
    store streams the facts: two scans with the same facts, no two of which
    have the same text form, give the same bytes. *)
Theorem Marshal_canonical {text : TripleText} `{store : StorageGraph Sto}
    (g g' : Graph Sto) (triples triples' : list Triple) :
  allTriples g = (triples, None) → allTriples g' = (triples', None) →
  triples ≡ₚ triples' → NoDup (map Triple_String triples) →
  Marshal g = Marshal g'.
Proof.
  intros Hscan Hscan' Hperm Hnd.
  rewrite (Marshal_scanned _ _ Hscan), (Marshal_scanned _ _ Hscan').
  assert (sort_Sort tripleSorter_Less triples
          = sort_Sort tripleSorter_Less triples') as ->
    by by apply (sort_Sort_perm_eq Triple_String).
  done.
Qed.

Lemma Marshal_canonical_witness :
  Marshal (text := tab_text) example_graph
  = Marshal (text := tab_text) example_graph'.
Proof.
  assert (Hperm : [c_d; a_c; a_b] ≡ₚ [a_b; c_d; a_c]).
  { apply (bool_decide_unpack _). by vm_compute. }
  assert (Hnd : NoDup (map (@Triple_String tab_text) [c_d; a_c; a_b])).
  { apply (bool_decide_unpack _). by vm_compute. }
  exact (Marshal_canonical (text := tab_text) example_graph example_graph'
           _ _ eq_refl eq_refl Hperm Hnd).
Defined.

(** [FlushString] hides the failure of [Marshal]: when the scan fails it
    returns the empty string, which is also what it returns for a graph
    without facts; when the scan succeeds it returns the text of
    [Marshal]. *)
Theorem FlushString_hides_failure {text : TripleText}
    `{store : StorageGraph Sto} (g : Graph Sto) :
  (∀ err, (allTriples g).2 = Some err →
          Marshal g = (None, Some err) ∧ FlushString g = EmptyString) ∧
  (allTriples g = ([], None) → FlushString g = EmptyString) ∧
  (∀ out, Marshal g = (Some out, None) →
          bytes_of_string (FlushString g) = out).
Proof.
  split; [|split].
  - intros err Herr. destruct (allTriples g) as [ts e] eqn:Hscan.
    simpl in Herr. subst e. unfold FlushString.
    by rewrite (Marshal_scan_failed _ _ _ Hscan).
  - intros Hscan. unfold FlushString. by rewrite (Marshal_scanned _ _ Hscan).
  - intros out Hout. unfold FlushString. rewrite Hout. simpl.
    apply String.list_byte_of_string_of_list_byte.
Qed.

Lemma FlushString_hides_failure_witness :
  Marshal (text := tab_text) broken_graph
  = (None, Some "scan: i/o error"%string) ∧
  FlushString (text := tab_text) broken_graph = EmptyString.
Proof.
  exact (proj1 (FlushString_hides_failure (text := tab_text) broken_graph)
           _ eq_refl).
Defined.



(** ** The counter and the set algebra *)

#[global] Instance memory_ExistLaw : ExistLaw memory.
Proof. split. reflexivity. Qed.

Section AlgebraFacts.
Context `{store : StorageGraph Sto}.
Implicit Types w : gmap string (Graph Sto).

Lemma add_each_count (g : Graph Sto) triples :
  int_min ≤ triplesCount g → triplesCount g + len triples ≤ int_max →
  triplesCount (add_each g triples) = triplesCount g + len triples.
Proof.
  unfold add_each, len. revert g.
  induction triples as [|tri rest IH]; intros g Hmin Hmax; simpl in *; [lia|].
  assert (triplesCount (Add g [tri]).1 = triplesCount g + 1) as Hone.
  { rewrite Add_count, int_add_small;
      unfold len, int_min, int_max in *; simpl; lia. }
  rewrite IH; lia.
Qed.

Lemma facts_Substract_of `{!SetStore Sto} (o o' : Graph Sto) t :
  t ∈ facts (storage_Graph (Substract_of o o'))
  ↔ t ∈ facts (storage_Graph o) ∧ t ∉ facts (storage_Graph o').
Proof.
  unfold Substract_of, copy_of. simpl.
  rewrite facts_remove, Add_store, facts_add. simpl.
  rewrite facts_new, elem_of_nil. unfold allTriples, facts. tauto.
Qed.

Lemma facts_Intersect_of `{!AddLaws Sto} `{!ExistLaw Sto}
    (o o' : Graph Sto) t :
  t ∈ facts (storage_Graph (Intersect_of o o'))
  ↔ t ∈ facts (storage_Graph o) ∧ t ∈ facts (storage_Graph o').
Proof.
  unfold Intersect_of. rewrite facts_add_each. simpl.
  rewrite facts_new, elem_of_nil, list_elem_of_filter.
  unfold passes. rewrite exist_facts. simpl.
  rewrite andb_true_r, bool_decide_spec. unfold allTriples, facts. tauto.
Qed.
End AlgebraFacts.

(** [Add] counts calls, not facts.  Adding the same triples a second time
    leaves the facts of the graph as they are and adds their number to the
    counter once more; the counter moves whatever the store answers. *)
Theorem Add_counts_every_call `{store : StorageGraph Sto} `{!AddLaws Sto}
    (g : Graph Sto) (triples : list Triple) :
  int_min ≤ TriplesCount g →
  TriplesCount g + 2 * len triples ≤ int_max →
  (∀ t, t ∈ facts (storage_Graph (Add (Add g triples).1 triples).1)
        ↔ t ∈ facts (storage_Graph (Add g triples).1)) ∧
  TriplesCount (Add g triples).1 = TriplesCount g + len triples ∧
  TriplesCount (Add (Add g triples).1 triples).1
  = TriplesCount g + 2 * len triples.
Proof.
  unfold TriplesCount. intros Hmin Hmax. pose proof (len_nonneg triples).
  assert (Hone : triplesCount (Add g triples).1
                 = triplesCount g + len triples).
  { rewrite Add_count, int_add_small; unfold int_min, int_max in *; lia. }
  split; [|split; [done|]].
  - intros t. rewrite !Add_store, !facts_add. tauto.
  - rewrite Add_count, Hone, int_add_small;
      unfold int_min, int_max in *; lia.
Qed.

Lemma Add_counts_every_call_witness :
  (∀ t, t ∈ facts (storage_Graph
                     (Add (Add example_graph [a_b; c_d]).1 [a_b; c_d]).1)
        ↔ t ∈ facts (storage_Graph (Add example_graph [a_b; c_d]).1)) ∧
  TriplesCount (Add example_graph [a_b; c_d]).1
  = TriplesCount example_graph + len [a_b; c_d] ∧
  TriplesCount (Add (Add example_graph [a_b; c_d]).1 [a_b; c_d]).1
  = TriplesCount example_graph + 2 * len [a_b; c_d].
Proof.
  assert (Hmin : int_min ≤ TriplesCount example_graph) by (by vm_compute).
  assert (Hmax : TriplesCount example_graph + 2 * len [a_b; c_d] ≤ int_max)
    by (by vm_compute).
  exact (Add_counts_every_call example_graph [a_b; c_d] Hmin Hmax).
Defined.

(** Over a store whose existence check is exact, [Intersect] is the
    intersection: the graph it returns holds the facts that [g] and
    [other] both hold, and no others. *)
Theorem Intersect_is_intersection `{store : StorageGraph Sto}
    `{!AddLaws Sto} `{!ExistLaw Sto}
    (w : gmap string (Graph Sto)) (randString g other : string)
    (o o' : Graph Sto) :
  w !! randString = None → w !! g = Some o → w !! other = Some o' →
  (allTriples o).2 = None →
  ∃ w' inter,
    Intersect w randString g other = Done (w', Some randString) ∧
    w' !! randString = Some inter ∧
    ∀ t, t ∈ facts (storage_Graph inter)
         ↔ t ∈ facts (storage_Graph o) ∧ t ∈ facts (storage_Graph o').
Proof.
  intros Hfree Hg Hother Hscan. eexists _, _.
  split; [by apply Intersect_scanned|]. split; [apply lookup_insert_eq|].
  apply facts_Intersect_of.
Qed.

Lemma Intersect_is_intersection_witness :
  ∃ w' inter,
    Intersect world_ab "i" "a" "b" = Done (w', Some "i"%string) ∧
    w' !! "i" = Some inter ∧
    ∀ t, t ∈ facts (storage_Graph inter) ↔ t ∈ [a_b; a_c] ∧ t ∈ [a_c].
Proof.
  assert (Hfree : world_ab !! "i" = None) by reflexivity.
  assert (Ha : world_ab !! "a" = Some (mkGraph [a_b; a_c] 4)) by reflexivity.
  assert (Hb : world_ab !! "b" = Some (mkGraph [a_c] 2)) by reflexivity.
  exact (Intersect_is_intersection world_ab "i" "a" "b" _ _
           Hfree Ha Hb eq_refl).
Defined.

(** [Substract] and [Intersect] split a graph.  Called one after the other
    on the same two graphs, over a store that keeps a set of facts and
    checks existence exactly, they return two graphs without a common fact
    that hold, together, the facts of [g]. *)
Theorem Substract_Intersect_split `{store : StorageGraph Sto}
    `{!SetStore Sto} `{!ExistLaw Sto}
    (w : gmap string (Graph Sto)) (name name' g other : string)
    (o o' : Graph Sto) :
  w !! name = None → w !! name' = None → name ≠ name' →
  w !! g = Some o → w !! other = Some o' →
  ∃ w1 w2 sub inter,
    Substract w name g other = Done (w1, name) ∧
    Intersect w1 name' g other = Done (w2, Some name') ∧
    w2 !! name = Some sub ∧ w2 !! name' = Some inter ∧
    ∀ t, (t ∈ facts (storage_Graph o)
          ↔ t ∈ facts (storage_Graph sub) ∨ t ∈ facts (storage_Graph inter)) ∧
         ¬ (t ∈ facts (storage_Graph sub) ∧ t ∈ facts (storage_Graph inter)).
Proof.
  intros Hfree Hfree' Hne Hg Hother.
  pose proof (lookup_fresh_ne _ _ _ _ Hfree Hg) as Hng.
  pose proof (lookup_fresh_ne _ _ _ _ Hfree Hother) as Hno.
  eexists _, _, _, _. split; [by apply Substract_fresh|]. split.
  - apply Intersect_scanned.
    + by rewrite lookup_insert_ne.
    + rewrite lookup_insert_ne; [exact Hg|done].
    + rewrite lookup_insert_ne; [exact Hother|done].
    + rewrite allTriples_scanned. done.
  - split; [by rewrite lookup_insert_ne, lookup_insert_eq|].
    split; [apply lookup_insert_eq|].
    intros t. rewrite facts_Substract_of, facts_Intersect_of.
    destruct (decide (t ∈ facts (storage_Graph o'))); tauto.
Qed.

Lemma Substract_Intersect_split_witness :
  ∃ w1 w2 sub inter,
    Substract world_ab "s" "a" "b" = Done (w1, "s"%string) ∧
    Intersect w1 "i" "a" "b" = Done (w2, Some "i"%string) ∧
    w2 !! "s" = Some sub ∧ w2 !! "i" = Some inter ∧
    ∀ t, (t ∈ [a_b; a_c]
          ↔ t ∈ facts (storage_Graph sub) ∨ t ∈ facts (storage_Graph inter)) ∧
         ¬ (t ∈ facts (storage_Graph sub) ∧ t ∈ facts (storage_Graph inter)).
Proof.
  assert (Hs : world_ab !! "s" = None) by reflexivity.
  assert (Hi : world_ab !! "i" = None) by reflexivity.
  assert (Hne : "s"%string ≠ "i"%string) by done.
  assert (Ha : world_ab !! "a" = Some (mkGraph [a_b; a_c] 4)) by reflexivity.
  assert (Hb : world_ab !! "b" = Some (mkGraph [a_c] 2)) by reflexivity.
  exact (Substract_Intersect_split world_ab "s" "i" "a" "b" _ _
           Hs Hi Hne Ha Hb).
Defined.

(** [Intersect] reads its two graphs and writes only the one it makes: for
    every store, whether the scan of [g] fails or not, it returns, and every
    graph that was in the store is as before. *)
Theorem Intersect_changes_no_other_graph `{store : StorageGraph Sto}
    (w : gmap string (Graph Sto)) (randString g other : string)
    (o o' : Graph Sto) :
  w !! randString = None → w !! g = Some o → w !! other = Some o' →
  ∃ w' result,
    Intersect w randString g other = Done (w', result) ∧
    ∀ p, p ≠ randString → w' !! p = w !! p.
Proof.
  intros Hfree Hg Hother.
  destruct (allTriples o).2 as [err|] eqn:Hscan.
  - eexists _, _. split; [by eapply Intersect_scan_failed|].
    intros p Hp. by rewrite lookup_insert_ne.
  - eexists _, _. split; [by apply Intersect_scanned|].
    intros p Hp. by rewrite lookup_insert_ne.
Qed.

Lemma Intersect_changes_no_other_graph_witness :
  ∃ w' result,
    Intersect world_flaky "i" "a" "other" = Done (w', result) ∧
    ∀ p, p ≠ "i"%string → w' !! p = world_flaky !! p.
Proof.
  assert (Hfree : world_flaky !! "i" = None) by reflexivity.
  assert (Ha : world_flaky !! "a"
               = Some (mkGraph (mkFlaky [a_b; a_c; c_d] None []) 3))
    by reflexivity.
  assert (Hother : world_flaky !! "other"
                   = Some (mkGraph (mkFlaky [a_b; a_c] None [a_c]) 2))
    by reflexivity.
  exact (Intersect_changes_no_other_graph world_flaky "i" "a" "other" _ _
           Hfree Ha Hother).
Defined.

(** The counter of the graph [Intersect] returns is the number of scanned
    triples that passed the existence check: one [Add] of one triple
    each. *)
Theorem Intersect_counts_kept `{store : StorageGraph Sto}
    (w : gmap string (Graph Sto)) (randString g other : string)
    (o o' : Graph Sto) :
  w !! randString = None → w !! g = Some o → w !! other = Some o' →
  (allTriples o).2 = None →
  len (allTriples o).1 ≤ int_max →
  ∃ w' inter,
    Intersect w randString g other = Done (w', Some randString) ∧
    w' !! randString = Some inter ∧
    TriplesCount inter
    = len (filter (λ tri, passes o' tri) (allTriples o).1).
Proof.
  intros Hfree Hg Hother Hscan Hlen. eexists _, _.
  split; [by apply Intersect_scanned|]. split; [apply lookup_insert_eq|].
  unfold TriplesCount, Intersect_of.
  assert (len (filter (λ tri, passes o' tri) (allTriples o).1)
          ≤ len (allTriples o).1) as Hle.
  { unfold len. pose proof (length_filter (λ tri, passes o' tri)
                              (allTriples o).1). lia. }
  pose proof (len_nonneg (filter (λ tri, passes o' tri) (allTriples o).1)).
  rewrite add_each_count; simpl; unfold int_min; lia.
Qed.

Lemma Intersect_counts_kept_witness :
  ∃ w' inter,
    Intersect world_flaky "i" "a" "other" = Done (w', Some "i"%string) ∧
    w' !! "i" = Some inter ∧ TriplesCount inter = 1.
Proof.
  assert (Hfree : world_flaky !! "i" = None) by reflexivity.
  assert (Ha : world_flaky !! "a"
               = Some (mkGraph (mkFlaky [a_b; a_c; c_d] None []) 3))
    by reflexivity.
  assert (Hother : world_flaky !! "other"
                   = Some (mkGraph (mkFlaky [a_b; a_c] None [a_c]) 2))
    by reflexivity.
  assert (Hlen : len (allTriples (mkGraph (mkFlaky [a_b; a_c; c_d] None []) 3)).1
                 ≤ int_max) by (by vm_compute).
  exact (Intersect_counts_kept world_flaky "i" "a" "other" _ _
           Hfree Ha Hother eq_refl Hlen).
Defined.

(** When the name drawn for the new graph is already in use, [Substract]
    and [Intersect] panic: they do not return, whatever the two graphs
    are. *)
Theorem set_algebra_panics_on_used_name `{store : StorageGraph Sto}
    (w : gmap string (Graph Sto)) (randString g other : string)
    (o : Graph Sto) :
  w !! randString = Some o →
  (∃ err, Substract w randString g other = Panic err) ∧
  (∃ err, Intersect w randString g other = Panic err).
Proof.
  intros Hused. split.
  - destruct (copy_taken w randString g o Hused) as [err Hcopy].
    exists err. unfold Substract. by rewrite Hcopy.
  - destruct (NewNamedGraph_taken w randString o Hused) as [err Hnew].
    exists err. unfold Intersect, NewGraph. by rewrite Hnew.
Qed.

Lemma set_algebra_panics_on_used_name_witness :
  (∃ err, Substract world_ab "b" "a" "b" = Panic err) ∧
  (∃ err, Intersect world_ab "b" "a" "b" = Panic err).
Proof.
  assert (Hb : world_ab !! "b" = Some (mkGraph [a_c] 2)) by reflexivity.
  exact (set_algebra_panics_on_used_name world_ab "b" "a" "b" _ Hb).
Defined.

(** [Substract] reports nothing: over any store, also one whose scans,
    adds and removals fail, it returns a new graph, and every graph that
    was in the store is as before. *)
Theorem Substract_always_returns `{store : StorageGraph Sto}
    (w : gmap string (Graph Sto)) (randString g other : string)
    (o o' : Graph Sto) :
  w !! randString = None → w !! g = Some o → w !! other = Some o' →
  ∃ w' sub,
    Substract w randString g other = Done (w', randString) ∧
    w' !! randString = Some sub ∧
    ∀ p, p ≠ randString → w' !! p = w !! p.
Proof.
  intros Hfree Hg Hother. eexists _, _.
  split; [by apply Substract_fresh|]. split; [apply lookup_insert_eq|].
  intros p Hp. by rewrite lookup_insert_ne.
Qed.

Lemma Substract_always_returns_witness :
  ∃ w' sub,
    Substract world_flaky "s" "broken" "broken" = Done (w', "s"%string) ∧
    w' !! "s" = Some sub ∧
    ∀ p, p ≠ "s"%string → w' !! p = world_flaky !! p.
Proof.
  assert (Hfree : world_flaky !! "s" = None) by reflexivity.
  assert (Hg : world_flaky !! "broken" = Some
            (mkGraph (mkFlaky [a_b] (Some "scan: i/o error"%string) []) 1))
    by reflexivity.
  exact (Substract_always_returns world_flaky "s" "broken" "broken" _ _
           Hfree Hg Hg).
Defined.

(** ** More on the traversal *)

Section VisitFacts.
Context `{store : StorageGraph Sto}.
Implicit Types g : Graph Sto.

Lemma fold_collect (seen more : list (Node * Z)) :
  fold_left (λ s '(n, d), collect n d s) more seen = seen ++ more.
Proof.
  revert seen. induction more as [|[n d] more IH]; intros seen; simpl.
  - by rewrite app_nil_r.
  - rewrite IH. unfold collect. by rewrite <- app_assoc.
Qed.

(** The state any visitor ends in is the visitor run along the visits that
    [collect] records, and the error is the same. *)
Lemma VisitDepthFirst_by_collect {St : Type} g (each : Node → Z → St → St)
    fuel :
  ∀ root distances st,
    VisitDepthFirst fuel g root each distances st
    = '(seen, err) ← VisitDepthFirst fuel g root collect distances [];
      Some (fold_left (λ s '(n, d), each n d s) seen st, err).
Proof.
  revert St each. induction fuel as [|fuel IH];
    intros St each root distances st; [done|].
  cbn [VisitDepthFirst].
  destruct (triplesForSubjectAndPredicate g root parentOf) as [rels [e|]];
    [done|].
  destruct (collect_childs rels []) as [cs|e]; [|done].
  set (d := start_depth distances).
  generalize (sort_Sort nodeSorter_Less cs). intros childs.
  change (each root d st)
    with (fold_left (λ s '(n, d), each n d s) (collect root d []) st).
  generalize (collect root d []). intros seen. revert seen.
  induction childs as [|c childs IHc]; intros seen; [done|].
  cbn [range_childs].
  rewrite (IH _ each c [int_add d 1]).
  rewrite (IH _ collect c [int_add d 1] seen).
  destruct (VisitDepthFirst fuel g c collect [int_add d 1] [])
    as [[more e]|]; [|done].
  simpl. rewrite fold_collect, <- fold_left_app. apply IHc.
Qed.

Lemma range_childs_stuck {St : Type}
    (visit : Node → St → option (St * option error)) childs child st :
  child ∈ childs → (∀ s, visit child s = None) →
  range_childs visit childs st = None.
Proof.
  intros Hin Hstuck. revert st.
  induction childs as [|c childs IH]; intros st.
  { by apply elem_of_nil in Hin. }
  simpl. apply elem_of_cons in Hin as [<-|Hin]; [by rewrite Hstuck|].
  destruct (visit c st) as [[st1 e]|]; [by apply IH|done].
Qed.
End VisitFacts.

(** The root is visited first, at the start depth, whatever happens next:
    every result of [VisitDepthFirst], also one with an error, has the
    visit of the root right after the visits made before the call. *)
Theorem VisitDepthFirst_root_first `{store : StorageGraph Sto}
    (g : Graph Sto) (fuel : nat) (root : Node) (distances : list Z)
    (seen seen' : list (Node * Z)) (err : option error) :
  VisitDepthFirst fuel g root collect distances seen = Some (seen', err) →
  ∃ more, seen' = seen ++ (root, start_depth distances) :: more.
Proof.
  destruct fuel as [|fuel]; [done|].
  rewrite (VisitDepthFirst_by_collect g collect (S fuel) root distances seen).
  cbn [VisitDepthFirst].
  destruct (triplesForSubjectAndPredicate g root parentOf) as [rels [e|]].
  { simpl. intros [= <- _]. by exists []. }
  destruct (collect_childs rels []) as [cs|e].
  2:{ simpl. intros [= <- _]. by exists []. }
  set (d := start_depth distances).
  set (visit := λ child st,
         VisitDepthFirst fuel g child collect [int_add d 1] st).
  assert (Hpre : ∀ childs s r, range_childs visit childs s = Some r →
                               ∃ more, r.1 = s ++ more).
  { induction childs as [|c childs IHc]; intros s r; simpl.
    - intros [= <-]. exists []. by rewrite app_nil_r.
    - unfold visit at 1.
      rewrite (VisitDepthFirst_by_collect g collect fuel c _ s).
      destruct (VisitDepthFirst fuel g c collect [int_add d 1] [])
        as [[more e]|]; [|done].
      simpl. rewrite fold_collect. intros [more' ->]%IHc.
      exists (more ++ more'). by rewrite app_assoc. }
  destruct (range_childs visit _ (collect root d [])) as [[tr e]|] eqn:Hrun;
    [|done].
  simpl. rewrite fold_collect. intros [= <- _].
  destruct (Hpre _ _ _ Hrun) as [more Hmore]. simpl in Hmore.
  exists more. by rewrite Hmore.
Qed.

Lemma VisitDepthFirst_root_first_witness :
  ∃ more, [(node_d, 7); (node_b, 1)]
          = [(node_d, 7)] ++ (node_b, start_depth [1]) :: more.
Proof.
  exact (VisitDepthFirst_root_first graph_with_literal 4 node_b [1]
           [(node_d, 7)] _ _ eq_refl).
Defined.

Lemma VisitDepthFirst_error_is_at_root_witness :
  childs_of graph_with_literal node_b = None ∧
  [(node_b, 1)] = collect node_b (start_depth [1]) [].
Proof.
  exact (VisitDepthFirst_error_is_at_root graph_with_literal collect 4 node_b
           [1] [] _ _ eq_refl).
Defined.

(** There is no cycle detection.  From a node on a cycle of [parent_of]
    facts, or with such a node below it, [VisitDepthFirst] does not return:
    no amount of fuel gives a result. *)
Theorem VisitDepthFirst_cycle_never_returns `{store : StorageGraph Sto}
    {St : Type} (g : Graph Sto) (each : Node → Z → St → St)
    (endless : Node → Prop) :
  (∀ n, endless n →
        ∃ childs child,
          childs_of g n = Some childs ∧ child ∈ childs ∧ endless child) →
  ∀ fuel root distances st,
    endless root → VisitDepthFirst fuel g root each distances st = None.
Proof.
  intros Hcycle. induction fuel as [|fuel IH];
    intros root distances st Hroot; [done|].
  destruct (Hcycle root Hroot) as (childs & child & Hc & Hin & Hchild).
  rewrite (VisitDepthFirst_step _ _ _ _ _ _ _ Hc).
  apply (range_childs_stuck _ _ child).
  - by rewrite nodeSorter_perm.
  - intros s. by apply IH.
Qed.

Lemma VisitDepthFirst_cycle_never_returns_witness :
  VisitDepthFirst 1000 cyclic_graph node_a collect [] [] = None.
Proof.
  assert (Hcycle : ∀ n, n = node_a ∨ n = node_b →
            ∃ childs child,
              childs_of cyclic_graph n = Some childs ∧ child ∈ childs ∧
              (child = node_a ∨ child = node_b)).
  { intros n [->| ->].
    - exists [node_b], node_b. split; [reflexivity|].
      split; [apply list_elem_of_here|by right].
    - exists [node_a], node_a. split; [reflexivity|].
      split; [apply list_elem_of_here|by left]. }
  exact (VisitDepthFirst_cycle_never_returns cyclic_graph collect
           (λ n, n = node_a ∨ n = node_b) Hcycle 1000%nat node_a [] []
           (or_introl eq_refl)).
Defined.

Lemma VisitDepthFirst_scan_order_witness :
  VisitDepthFirst 3 example_graph node_a collect [] []
  = VisitDepthFirst 3 example_graph' node_a collect [] [].
Proof.
  exact (VisitDepthFirst_scan_order example_graph example_graph' collect
           example_graphs_same_children 3%nat node_a [] []).
Defined.

(** ** The sorters *)

(** [nodeSorter.Less] and [tripleSorter.Less] are orders that [sort.Sort]
    can use: no element is less than itself, and less is transitive.  Two
    elements neither of which is less than the other are those with the
    same key: for nodes the same identifier, whatever their types; for
    triples the same text form. *)
Theorem sorters_Less_strict_order {text : TripleText} :
  (∀ a, nodeSorter_Less a a = false) ∧
  (∀ a b c, nodeSorter_Less a b = true → nodeSorter_Less b c = true →
            nodeSorter_Less a c = true) ∧
  (∀ a b, nodeSorter_Less a b = false ∧ nodeSorter_Less b a = false
          ↔ node_ID a = node_ID b) ∧
  (∀ a, tripleSorter_Less a a = false) ∧
  (∀ a b c, tripleSorter_Less a b = true → tripleSorter_Less b c = true →
            tripleSorter_Less a c = true) ∧
  (∀ a b, tripleSorter_Less a b = false ∧ tripleSorter_Less b a = false
          ↔ Triple_String a = Triple_String b).
Proof.
  assert (Hties : ∀ x y : string,
            String.ltb x y = false ∧ String.ltb y x = false ↔ x = y).
  { intros x y. split.
    - intros [Hxy Hyx]. by apply str_le_antisym.
    - intros ->. split; apply ltb_irrefl. }
  unfold nodeSorter_Less, tripleSorter_Less, ID_String.
  split; [intros a; apply ltb_irrefl|].
  split; [intros a b c; apply ltb_trans|].
  split; [intros a b; apply Hties|].
  split; [intros a; apply ltb_irrefl|].
  split; [intros a b c; apply ltb_trans|].
  intros a b; apply Hties.
Qed.

Lemma sorters_Less_strict_order_witness :
  nodeSorter_Less (mkNode "/region" "x") (mkNode "/instance" "x") = false ∧
  nodeSorter_Less (mkNode "/instance" "x") (mkNode "/region" "x") = false.
Proof.
  exact (proj2 (proj1 (proj2 (proj2 (sorters_Less_strict_order
                                       (text := tab_text))))
                  (mkNode "/region" "x") (mkNode "/instance" "x"))
           eq_refl).
Defined.

(** ** Names of new graphs *)

Lemma fmt_Sprintf_d_inj (a b : Z) : fmt_Sprintf_d a = fmt_Sprintf_d b → a = b.
Proof.
  unfold fmt_Sprintf_d. intros Heq.
  assert (Hnn : ∀ z, Z.to_int z ≠ Decimal.Pos Decimal.Nil ∧
                     Z.to_int z ≠ Decimal.Neg Decimal.Nil).
  { intros [|p|p]; simpl; split; try done;
      intros [= Hp]; by apply DecimalPos.Unsigned.to_uint_nonnil in Hp. }
  apply DecimalZ.to_int_inj.
  pose proof (DecimalString.NilZero.isi (Z.to_int a)
                (proj1 (Hnn a)) (proj2 (Hnn a))) as Ha.
  pose proof (DecimalString.NilZero.isi (Z.to_int b)
                (proj1 (Hnn b)) (proj2 (Hnn b))) as Hb.
  rewrite Heq in Ha. congruence.
Qed.

Lemma string_of_uint_digits (d : Decimal.uint) :
  all_digits (DecimalString.NilEmpty.string_of_uint d) = true.
Proof. induction d; simpl; done. Qed.

Lemma decimal_from_uint_acc (d : Decimal.uint) (acc : positive) :
  decimal_from (Z.pos acc) (DecimalString.NilEmpty.string_of_uint d)
  = Z.pos (Pos.of_uint_acc d acc).
Proof.
  revert acc. induction d as [|d IH|d IH|d IH|d IH|d IH|d IH|d IH|d IH|d IH|d IH];
    intros acc; [done|..];
    cbn [DecimalString.NilEmpty.string_of_uint decimal_from Pos.of_uint_acc];
    rewrite <- IH; f_equal;
    match goal with
    | |- context [Z.of_nat (nat_of_ascii ?c)] =>
        let v := eval vm_compute in (Z.of_nat (nat_of_ascii c)) in
        change (Z.of_nat (nat_of_ascii c)) with v
    end; lia.
Qed.

Lemma decimal_value_uint (d : Decimal.uint) :
  decimal_value (DecimalString.NilEmpty.string_of_uint d)
  = Z.of_N (Pos.of_uint d).
Proof.
  unfold decimal_value.
  induction d as [|d IH|d IH|d IH|d IH|d IH|d IH|d IH|d IH|d IH|d IH];
    [done|exact IH|..];
    cbn [DecimalString.NilEmpty.string_of_uint decimal_from Pos.of_uint];
    exact (decimal_from_uint_acc d _).
Qed.

Lemma nzhead_no_zero (d : Decimal.uint) :
  match Decimal.nzhead d with Decimal.D0 _ => False | _ => True end.
Proof. induction d; simpl; done. Qed.

Lemma to_uint_normal (p : positive) :
  Decimal.unorm (Pos.to_uint p) = Pos.to_uint p.
Proof.
  pose proof (DecimalPos.Unsigned.to_of (Pos.to_uint p)) as Hn.
  by rewrite DecimalPos.Unsigned.of_to in Hn.
Qed.

Lemma decimal_from_lower (s : string) :
  ∀ acc, all_digits s = true → 0 ≤ acc →
         acc * 10 ^ Z.of_nat (String.length s) ≤ decimal_from acc s.
Proof.
  induction s as [|c r IH]; intros acc Hd Hacc.
  { simpl. lia. }
  cbn [all_digits] in Hd. apply andb_true_iff in Hd as [Hc Hr].
  unfold is_digit in Hc. apply andb_true_iff in Hc as [Hlo Hhi].
  apply Nat.leb_le in Hlo, Hhi. cbn [decimal_from String.length].
  etrans; [|apply IH; [done|lia]].
  rewrite Nat2Z.inj_succ, Z.pow_succ_r by lia.
  assert (0 ≤ 10 ^ Z.of_nat (String.length r)) by (apply Z.pow_nonneg; lia).
  nia.
Qed.

(** [randString] writes the number in decimal.  For a number [rando.Intn]
    can return, the name is made of digits, has no superfluous leading
    zero, denotes the number in base ten, and has 1 to 16 characters; so
    different numbers get different names. *)
Theorem randString_is_decimal (draw : Z) :
  0 ≤ draw < 10 ^ 16 →
  all_digits (randString draw) = true ∧
  no_leading_zero (randString draw) = true ∧
  decimal_value (randString draw) = draw ∧
  (1 ≤ String.length (randString draw) ≤ 16)%nat ∧
  ∀ draw', 0 ≤ draw' < 10 ^ 16 →
           randString draw = randString draw' → draw = draw'.
Proof.
  assert (Hvalue : ∀ z, 0 ≤ z → decimal_value (randString z) = z).
  { intros [|p|p] Hz; [done| |lia].
    unfold randString, fmt_Sprintf_d. simpl.
    pose proof (DecimalPos.Unsigned.to_uint_nonnil p).
    assert (DecimalString.NilZero.string_of_uint (Pos.to_uint p)
            = DecimalString.NilEmpty.string_of_uint (Pos.to_uint p)) as ->
      by by destruct (Pos.to_uint p).
    by rewrite decimal_value_uint, DecimalPos.Unsigned.of_to. }
  intros [Hlo Hhi].
  assert (Hdigits : all_digits (randString draw) = true).
  { unfold randString, fmt_Sprintf_d. destruct draw as [|p|p]; [done| |lia].
    simpl. pose proof (string_of_uint_digits (Pos.to_uint p)).
    by destruct (Pos.to_uint p). }
  assert (Hlead : no_leading_zero (randString draw) = true).
  { unfold randString, fmt_Sprintf_d. destruct draw as [|p|p]; [done| |lia].
    simpl. rewrite <- to_uint_normal. unfold Decimal.unorm.
    pose proof (nzhead_no_zero (Pos.to_uint p)).
    by destruct (Decimal.nzhead (Pos.to_uint p)). }
  split; [done|]. split; [done|]. split; [by apply Hvalue|]. split.
  - assert (randString draw ≠ EmptyString) as Hne.
    { unfold randString, fmt_Sprintf_d. destruct draw as [|p|p]; [done| |lia].
      simpl. pose proof (DecimalPos.Unsigned.to_uint_nonnil p).
      by destruct (Pos.to_uint p). }
    pose proof (Hvalue draw Hlo) as Hv. unfold decimal_value in Hv.
    destruct (randString draw) as [|c r]; [done|].
    split; [simpl; lia|].
    destruct r as [|c' r']; [simpl; lia|].
    cbn [all_digits] in Hdigits. apply andb_true_iff in Hdigits as [Hc Hr].
    assert (1 ≤ Z.of_nat (nat_of_ascii c) - 48) as Hfirst.
    { unfold is_digit in Hc. apply andb_true_iff in Hc as [Hge _].
      apply Nat.leb_le in Hge.
      destruct (decide (nat_of_ascii c = 48%nat)) as [Heq|]; [|lia].
      assert (c = "0"%char) as ->
        by (rewrite <- (ascii_nat_embedding c), Heq; done).
      done. }
    change (decimal_from 0 (String c (String c' r')))
      with (decimal_from (10 * 0 + (Z.of_nat (nat_of_ascii c) - 48))
              (String c' r')) in Hv.
    pose proof (decimal_from_lower (String c' r')
                  (10 * 0 + (Z.of_nat (nat_of_ascii c) - 48)) Hr
                  ltac:(lia)) as Hlow.
    rewrite Hv in Hlow.
    assert (0 ≤ 10 ^ Z.of_nat (String.length (String c' r')))
      by (apply Z.pow_nonneg; lia).
    assert (10 ^ Z.of_nat (String.length (String c' r')) < 10 ^ 16) as Hpow
      by nia.
    apply Z.pow_lt_mono_r_iff in Hpow; [|lia|lia].
    change (String.length (String c (String c' r')))
      with (S (String.length (String c' r'))). lia.
  - intros draw' [Hlo' _] Heq.
    by rewrite <- (Hvalue draw Hlo), <- (Hvalue draw' Hlo'), Heq.
Qed.

Lemma randString_is_decimal_witness :
  all_digits (randString 42) = true ∧
  no_leading_zero (randString 42) = true ∧
  decimal_value (randString 42) = 42 ∧
  (1 ≤ String.length (randString 42) ≤ 16)%nat ∧
  ∀ draw', 0 ≤ draw' < 10 ^ 16 →
           randString 42 = randString draw' → 42 = draw'.
Proof.
  assert (Hdraw : 0 ≤ 42 < 10 ^ 16) by (by vm_compute).
  exact (randString_is_decimal 42 Hdraw).
Defined.

Example randString_example :
  randString 0 = "0"%string ∧
  randString 9999999999999999 = "9999999999999999"%string.
Proof. by vm_compute. Qed.

(** ** More compositions *)

(** A graph against itself, over a store that keeps a set of facts and
    checks existence exactly: [Substract] returns a graph without facts,
    [Intersect] a graph with the same facts. *)
Theorem set_algebra_with_itself `{store : StorageGraph Sto}
    `{!SetStore Sto} `{!ExistLaw Sto}
    (w : gmap string (Graph Sto)) (randString g : string) (o : Graph Sto) :
  w !! randString = None → w !! g = Some o →
  (∃ w' sub,
     Substract w randString g g = Done (w', randString) ∧
     w' !! randString = Some sub ∧
     ∀ t, t ∉ facts (storage_Graph sub)) ∧
  (∃ w' inter,
     Intersect w randString g g = Done (w', Some randString) ∧
     w' !! randString = Some inter ∧
     ∀ t, t ∈ facts (storage_Graph inter) ↔ t ∈ facts (storage_Graph o)).
Proof.
  intros Hfree Hg. split.
  - eexists _, _. split; [by apply Substract_fresh|].
    split; [apply lookup_insert_eq|].
    intros t. rewrite facts_Substract_of. tauto.
  - eexists _, _. split.
    + apply Intersect_scanned; [done..|]. by rewrite allTriples_scanned.
    + split; [apply lookup_insert_eq|].
      intros t. rewrite facts_Intersect_of. tauto.
Qed.

Lemma set_algebra_with_itself_witness :
  (∃ w' sub,
     Substract world_ab "s" "a" "a" = Done (w', "s"%string) ∧
     w' !! "s" = Some sub ∧
     ∀ t, t ∉ facts (storage_Graph sub)) ∧
  (∃ w' inter,
     Intersect world_ab "s" "a" "a" = Done (w', Some "s"%string) ∧
     w' !! "s" = Some inter ∧
     ∀ t, t ∈ facts (storage_Graph inter) ↔ t ∈ [a_b; a_c]).
Proof.
  assert (Hfree : world_ab !! "s" = None) by reflexivity.
  assert (Ha : world_ab !! "a" = Some (mkGraph [a_b; a_c] 4)) by reflexivity.
  exact (set_algebra_with_itself world_ab "s" "a" _ Hfree Ha).
Defined.

(** Reading a graph's own text back into it, when the text form of each
    of its facts is one non-blank line, without a newline in it, that the
    parser reads back as the fact, and the store keeps a set of facts:
    [Unmarshal] returns no error, adds no fact, and adds the number of the
    facts to the counter. *)
Theorem Unmarshal_own_text {text : TripleText} `{store : StorageGraph Sto}
    `{!SetStore Sto} (g : Graph Sto) (data : bytes) :
  Forall reads_back (facts (storage_Graph g)) →
  Marshal g = (Some data, None) →
  int_min ≤ TriplesCount g →
  TriplesCount g + len (facts (storage_Graph g)) ≤ int_max →
  ∃ g',
    Unmarshal g data = (g', None) ∧
    (∀ t, t ∈ facts (storage_Graph g') ↔ t ∈ facts (storage_Graph g)) ∧
    TriplesCount g' = TriplesCount g + len (facts (storage_Graph g)).
Proof.
  intros Hback Hmarshal Hmin Hmax.
  rewrite (Marshal_scanned _ _ (allTriples_scanned g)) in Hmarshal.
  set (sorted := sort_Sort tripleSorter_Less (facts (storage_Graph g))) in *.
  assert (Hperm : sorted ≡ₚ facts (storage_Graph g))
    by apply tripleSorter_perm.
  assert (Hback' : Forall reads_back sorted) by by rewrite Hperm.
  assert (Hlines : nonblank_lines data
                   = map (λ t, bytes_of_string (Triple_String t)) sorted).
  { inversion Hmarshal. by apply nonblank_lines_Join. }
  destruct (add_all_total g sorted) as [g' Hadd].
  assert (Hrun : Unmarshal g data = (g', None)).
  { eapply Unmarshal_all_lines; [|exact Hadd].
    by rewrite Hlines, parse_lines_back. }
  assert (Hlen : len (nonblank_lines data) = len (facts (storage_Graph g))).
  { unfold len. by rewrite Hlines, length_map, Hperm. }
  exists g'. split; [done|]. split.
  - intros t. rewrite (facts_add_all _ _ _ Hadd), Hperm. tauto.
  - unfold TriplesCount in *. rewrite <- Hlen in Hmax |- *.
    by apply (Unmarshal_lines_count (bytes_Split data x0a)).
Qed.

Lemma Unmarshal_own_text_witness :
  ∃ g',
    Unmarshal (text := tab_text) example_graph
      (default [] (Marshal (text := tab_text) example_graph).1) = (g', None) ∧
    (∀ t, t ∈ facts (storage_Graph g')
          ↔ t ∈ facts (storage_Graph example_graph)) ∧
    TriplesCount g'
    = TriplesCount example_graph + len (facts (storage_Graph example_graph)).
Proof.
  assert (Hback : Forall (reads_back (text := tab_text))
                    (facts (storage_Graph example_graph))).
  { repeat constructor; try (by vm_compute);
      apply (bool_decide_unpack _); by vm_compute. }
  assert (Hmin : int_min ≤ TriplesCount example_graph) by (by vm_compute).
  assert (Hmax : TriplesCount example_graph
                 + len (facts (storage_Graph example_graph)) ≤ int_max)
    by (by vm_compute).
  exact (Unmarshal_own_text (text := tab_text) example_graph _
           Hback eq_refl Hmin Hmax).
Defined.

(** The text of [Marshal] has one line for each fact of the scan: when no
    text form contains a newline and there is a fact, cutting the text at
    the newlines gives the text forms, in ascending order, and nothing
    else. *)
Theorem Marshal_one_line_per_fact {text : TripleText}
    `{store : StorageGraph Sto} (g : Graph Sto) (triples : list Triple)
    (out : bytes) :
  allTriples g = (triples, None) → triples ≠ [] →
  Forall (λ t, x0a ∉ bytes_of_string (Triple_String t)) triples →
  Marshal g = (Some out, None) →
  ∃ sorted,
    bytes_Split out x0a
    = map (λ t, bytes_of_string (Triple_String t)) sorted ∧
    sorted ≡ₚ triples ∧ StronglySorted (le_by Triple_String) sorted ∧
    length (bytes_Split out x0a) = length triples.
Proof.
  intros Hscan Hne Hnl Hmarshal.
  rewrite (Marshal_scanned _ _ Hscan) in Hmarshal. inversion Hmarshal.
  pose proof (tripleSorter_perm triples) as Hperm.
  exists (sort_Sort tripleSorter_Less triples).
  assert (bytes_Split
            (bytes_Join (map (λ t, bytes_of_string (Triple_String t))
                           (sort_Sort tripleSorter_Less triples)) [x0a]) x0a
          = map (λ t, bytes_of_string (Triple_String t))
                (sort_Sort tripleSorter_Less triples)) as Hsplit.
  { apply bytes_Split_Join.
    - intros Hnil. apply map_eq_nil in Hnil. rewrite Hnil in Hperm.
      by apply Permutation_nil_l in Hperm.
    - rewrite Forall_fmap, Hperm. exact Hnl. }
  rewrite Hsplit. split; [done|]. split; [done|].
  split; [apply (sort_Sort_sorted Triple_String)|].
  by rewrite length_map, Hperm.
Qed.

Lemma Marshal_one_line_per_fact_witness :
  ∃ sorted,
    bytes_Split (default [] (Marshal (text := tab_text) example_graph).1) x0a
    = map (λ t, bytes_of_string (@Triple_String tab_text t)) sorted ∧
    sorted ≡ₚ [c_d; a_c; a_b] ∧
    StronglySorted (le_by (@Triple_String tab_text)) sorted ∧
    length (bytes_Split
              (default [] (Marshal (text := tab_text) example_graph).1) x0a)
    = length [c_d; a_c; a_b].
Proof.
  assert (Hne : [c_d; a_c; a_b] ≠ []) by done.
  assert (Hnl : Forall (λ t, x0a ∉ bytes_of_string (@Triple_String tab_text t))
                  [c_d; a_c; a_b]).
  { repeat constructor; apply (bool_decide_unpack _); by vm_compute. }
  exact (Marshal_one_line_per_fact (text := tab_text) example_graph _ _
           eq_refl Hne Hnl eq_refl).
Defined.
